(** * listmodel-to-cpp.py: a shallow embedding and its specification

    The program reads a QML file holding a [ListModel] of [ListElement]
    blocks and writes a C++ header and source file for a
    [QAbstractListModel] subclass.

    Modelling choices.
    - Text is a list of 8-bit characters.  The classes [\w] and [\s] and
      the case mappings [upper]/[lower] are Python's on the ASCII range
      (for [str] patterns [\s] also matches the separators 28..31); the
      codes 128..255 are caseless and belong to neither class.
    - The three regular expressions of the source are embedded as
      matchers that follow each pattern left to right.  In each of them a
      greedy repetition is followed by a character its class excludes, so
      the backtracking of [re] can never find a match the greedy run
      misses; the lemmas [match_root_here_spec], [match_element_here_spec]
      and [match_prop_here_spec] state this against the declarative reading
      of the patterns.
    - The file system is a finite map from paths to the text of regular
      files; [open(..., 'r')] applies universal-newline translation,
      [open(..., 'w')] creates or truncates.  Paths follow [posixpath].
    - Python's [set] iterates in an order that depends on the hash seed of
      the process: every definition that iterates over a set takes that
      order as the parameter [iter].
    - [print] appends a line to standard output, [sys.exit] and uncaught
      exceptions stop the run; both are kept in a small monad.
    - The module [Os] gives the same program over a file system whose
      reads and opens for writing can raise, with [str.lower] as a
      parameter.  What a run writes, where it writes it and which
      exceptions end it are stated there; statements about the patterns
      and the case maps carry the hypothesis that the text is ASCII. *)

From Stdlib Require Import Ascii.
From stdpp Require Import gmap sorting list strings.

Local Open Scope char_scope.
Local Open Scope list_scope.

(** ** Text *)

Abbreviation text := (list ascii).

Definition str (s : string) : text := String.list_ascii_of_string s.

Definition LF : ascii := "010".
Definition CR : ascii := "013".
Definition nl : text := [LF].
Definition dq : text := ["034"].

Definition code (c : ascii) : N := N_of_ascii c.

Definition in_range (lo hi : N) (c : ascii) : bool :=
  ((lo <=? code c)%N && (code c <=? hi)%N)%bool.

(** [\s] of a [str] pattern: [str.isspace] on the ASCII range. *)
Definition is_space (c : ascii) : bool :=
  in_range 9 13 c || in_range 28 32 c.

(** [\w] of a [str] pattern on the ASCII range: [[a-zA-Z0-9_]]. *)
Definition is_word (c : ascii) : bool :=
  in_range 48 57 c || in_range 65 90 c || in_range 97 122 c || (code c =? 95)%N.

Definition upper_char (c : ascii) : ascii :=
  if in_range 97 122 c then ascii_of_N (code c - 32) else c.

Definition lower_char (c : ascii) : ascii :=
  if in_range 65 90 c then ascii_of_N (code c + 32) else c.

(** [str.upper] and [str.lower]. *)
Definition upper (s : text) : text := upper_char <$> s.
Definition lower (s : text) : text := lower_char <$> s.

(** The code points below 128.  On them the two classes and the two case
    maps above are those of Python; beyond them Python knows further white
    space (U+00A0), further word characters and case maps that change the
    length of a text. *)
Definition is_ascii (c : ascii) : bool := (code c <? 128)%N.

Definition char_eqb (a b : ascii) : bool := (code a =? code b)%N.

Fixpoint take_while (p : ascii → bool) (s : text) : text :=
  match s with
  | c :: r => if p c then c :: take_while p r else []
  | [] => []
  end.

Fixpoint drop_while (p : ascii → bool) (s : text) : text :=
  match s with
  | c :: r => if p c then drop_while p r else s
  | [] => []
  end.

(** [after_prefix p s] is [Some r] when [s = p ++ r]. *)
Fixpoint after_prefix (p s : text) : option text :=
  match p, s with
  | [], _ => Some s
  | a :: p', b :: s' => if char_eqb a b then after_prefix p' s' else None
  | _ :: _, [] => None
  end.

Definition startswith (p s : text) : bool :=
  match after_prefix p s with Some _ => true | None => false end.

(** [sep.join(l)] *)
Fixpoint join (sep : text) (l : list text) : text :=
  match l with
  | [] => []
  | [x] => x
  | x :: r => x ++ sep ++ join sep r
  end.

(** [s.replace(old, new)] for a non-empty [old]: occurrences are replaced
    from the left, the scan resuming after each replaced occurrence.
    [skip] counts the characters of a replaced occurrence still to pass. *)
Fixpoint replace_from (old new : text) (skip : nat) (s : text) : text :=
  match s with
  | [] => []
  | c :: r =>
      match skip with
      | S k => replace_from old new k r
      | O =>
          if startswith old s
          then new ++ replace_from old new (length old - 1) r
          else c :: replace_from old new 0 r
      end
  end.

Definition replace (old new s : text) : text := replace_from old new 0 s.

(** Code-point order on strings: Python's [<=] on [str]. *)
Fixpoint text_leb (a b : text) : bool :=
  match a, b with
  | [], _ => true
  | _ :: _, [] => false
  | x :: a', y :: b' =>
      if (code x <? code y)%N then true
      else if (code x =? code y)%N then text_leb a' b' else false
  end.

Definition text_le (a b : text) : Prop := text_leb a b = true.

Global Instance text_le_dec : RelDecision text_le :=
  λ a b, decide (text_leb a b = true).

(** [sorted(l)] for a list of strings. *)
Definition sorted (l : list text) : list text := merge_sort text_le l.

(** ** The regular expressions of the source *)

Module Re.

Definition not_char (x c : ascii) : bool := negb (char_eqb c x).

(** [\s*ListModel\s*{] tried at the start of [s]. *)
Definition match_root_here (s : text) : bool :=
  match after_prefix (str "ListModel") (drop_while is_space s) with
  | Some r => startswith (str "{") (drop_while is_space r)
  | None => false
  end.

(** [re.search(r'^\s*ListModel\s*{', s, re.MULTILINE)] as a truth value.
    [bol] tells whether the current position starts a line: the start of
    the text, or just after a line feed. *)
Fixpoint search_root (bol : bool) (s : text) : bool :=
  (bol && match_root_here s) ||
  match s with
  | [] => false
  | c :: r => search_root (char_eqb c LF) r
  end.

(** The pattern [ListElement \s* { ( [^}]* ) }] (written here with blanks
    between its parts) tried at the start of [s]: the captured body and
    the text after the match. *)
Definition match_element_here (s : text) : option (text * text) :=
  match after_prefix (str "ListElement") s with
  | Some r =>
      match drop_while is_space r with
      | c :: r' =>
          if char_eqb c "{" then
            match drop_while (not_char "}") r' with
            | _ :: rest => Some (take_while (not_char "}") r', rest)
            | [] => None
            end
          else None
      | [] => None
      end
  | None => None
  end.

(** The pattern [( \w+ ) \s* : \s* ( .* )] (written with blanks between its
    parts) tried at the start of [s]; no flags, so [.] stops at a line
    feed.  The two captures and the text after the match. *)
Definition match_prop_here (s : text) : option ((text * text) * text) :=
  match take_while is_word s with
  | [] => None
  | name =>
      match drop_while is_space (drop_while is_word s) with
      | c :: r =>
          if char_eqb c ":" then
            let v := drop_while is_space r in
            Some ((name, take_while (not_char LF) v), drop_while (not_char LF) v)
          else None
      | [] => None
      end
  end.

(** [re.findall]: scan from the left, try the pattern at every position,
    resume after each match.  [skip] counts the characters of the last
    match that are still to be passed. *)
Fixpoint findall_from {A} (here : text → option (A * text))
    (skip : nat) (s : text) : list A :=
  match s with
  | [] => []
  | _ :: r =>
      match skip with
      | S k => findall_from here k r
      | O =>
          match here s with
          | Some (x, rest) => x :: findall_from here (length s - length rest - 1) r
          | None => findall_from here 0 r
          end
      end
  end.

(** [re.findall] of the element pattern over [content], flags
    [re.MULTILINE | re.DOTALL]. *)
Definition findall_elements (content : text) : list text :=
  findall_from match_element_here 0 content.

(** [re.findall] of the property pattern over one element body. *)
Definition findall_props (element : text) : list (text * text) :=
  findall_from match_prop_here 0 element.

End Re.

(** ** posixpath *)

Module Path.

(** [s.rfind(c)]: the index of the last [c], or [-1]. *)
Fixpoint rfind (c : ascii) (s : text) : Z :=
  match s with
  | [] => -1
  | x :: r =>
      let i := rfind c r in
      if (0 <=? i)%Z then (i + 1)%Z else if char_eqb x c then 0%Z else (-1)%Z
  end.

Definition is_slash (c : ascii) : bool := char_eqb c "/".

(** [s.rstrip('/')] *)
Definition rstrip_slash (s : text) : text :=
  reverse (drop_while is_slash (reverse s)).

Definition basename (p : text) : text :=
  let i := Z.to_nat (rfind "/" p + 1) in
  drop i p.

Definition dirname (p : text) : text :=
  let i := Z.to_nat (rfind "/" p + 1) in
  let head := take i p in
  if negb (forallb is_slash head) then rstrip_slash head else head.

(** [genericpath._splitext(p, '/', None, '.')] *)
Definition splitext (p : text) : text * text :=
  let sepIndex := rfind "/" p in
  let dotIndex := rfind "." p in
  if (sepIndex <? dotIndex)%Z
       && existsb (Re.not_char ".")
            (take (Z.to_nat (dotIndex - (sepIndex + 1))) (drop (Z.to_nat (sepIndex + 1)) p))
  then (take (Z.to_nat dotIndex) p, drop (Z.to_nat dotIndex) p)
  else (p, []).

(** [posixpath.join(a, b)] *)
Definition join (a b : text) : text :=
  if startswith (str "/") b then b
  else match last a with
       | None => a ++ b
       | Some c => if is_slash c then a ++ b else a ++ str "/" ++ b
       end.

End Path.

(** ** Effects: exceptions, exit, standard output and files *)

Inductive exn :=
  | IndexError | KeyError | FileNotFoundError
  | IsADirectoryError | PermissionError | UnicodeDecodeError.

(** Computations that can only raise. *)
Inductive E (A : Type) : Type :=
  | Ok (a : A)
  | Raise (e : exn).
Arguments Ok {A} a.
Arguments Raise {A} e.

Definition bindE {A B} (m : E A) (k : A → E B) : E B :=
  match m with
  | Ok a => k a
  | Raise e => Raise e
  end.

Notation "'let?' x := m 'in' k" := (bindE m (λ x, k))
  (at level 10, x pattern, m at level 100, k at level 200).

(** [l[i]] *)
Definition getitem {A} (l : list A) (i : nat) : E A :=
  match l !! i with
  | Some x => Ok x
  | None => Raise IndexError
  end.

(** [d[k]] *)
Definition getkey {V} (d : gmap text V) (k : text) : E V :=
  match d !! k with
  | Some v => Ok v
  | None => Raise KeyError
  end.

Fixpoint foldE {A S} (body : S → A → E S) (l : list A) (s : S) : E S :=
  match l with
  | [] => Ok s
  | x :: r => let? s' := body s x in foldE body r s'
  end.

Fixpoint mapE {A B} (f : A → E B) (l : list A) : E (list B) :=
  match l with
  | [] => Ok []
  | x :: r => let? y := f x in let? ys := mapE f r in Ok (y :: ys)
  end.

(** How a run ends early: [sys.exit(status)] or an uncaught exception
    (traceback on standard error, exit status 1). *)
Inductive stop :=
  | SysExit (status : Z)
  | Uncaught (e : exn).

Inductive run (A : Type) : Type :=
  | Returns (a : A)
  | Stops (s : stop).
Arguments Returns {A} a.
Arguments Stops {A} s.

Record world := World {
  files : gmap text text;
  stdout : list text
}.

Definition M (A : Type) : Type := world → run A * world.

Definition ret {A} (a : A) : M A := λ w, (Returns a, w).

Definition bind {A B} (m : M A) (k : A → M B) : M B :=
  λ w, match m w with
       | (Returns a, w') => k a w'
       | (Stops s, w') => (Stops s, w')
       end.

Notation "'let!' x := m 'in' k" := (bind m (λ x, k))
  (at level 10, x pattern, m at level 100, k at level 200).

Definition lift {A} (m : E A) : M A :=
  λ w, match m with
       | Ok a => (Returns a, w)
       | Raise e => (Stops (Uncaught e), w)
       end.

(** [print(line)] *)
Definition print (line : text) : M unit :=
  λ w, (Returns tt, World (files w) (stdout w ++ [line])).

(** [sys.exit(status)] *)
Definition sys_exit {A} (status : Z) : M A :=
  λ w, (Stops (SysExit status), w).

(** Universal newlines of text-mode reading: [\r\n] and [\r] become [\n]. *)
Fixpoint universal_newlines (s : text) : text :=
  match s with
  | [] => []
  | c :: r =>
      if char_eqb c CR then
        LF :: match r with
              | d :: r' => if char_eqb d LF then universal_newlines r'
                           else universal_newlines r
              | [] => []
              end
      else c :: universal_newlines r
  end.

(** [with open(path, 'r', encoding='utf-8') as file: file.read()] *)
Definition read_file (path : text) : M text :=
  λ w, match files w !! path with
       | Some data => (Returns (universal_newlines data), w)
       | None => (Stops (Uncaught FileNotFoundError), w)
       end.

(** [with open(path, 'w', encoding='utf-8') as f: f.write(data)] *)
Definition write_file (path data : text) : M unit :=
  λ w, (Returns tt, World (<[path := data]> (files w)) (stdout w)).

(** [os.path.exists(path)] *)
Definition path_exists (path : text) : M bool :=
  λ w, (Returns (bool_decide (is_Some (files w !! path))), w).

Fixpoint for_each {A S} (body : S → A → M S) (l : list A) (s : S) : M S :=
  match l with
  | [] => ret s
  | x :: r => let! s' := body s x in for_each body r s'
  end.

(** The exit status of the process. *)
Definition exit_status {A} (r : run A) : Z :=
  match r with
  | Returns _ => 0
  | Stops (SysExit n) => n
  | Stops (Uncaught _) => 1
  end.

(** ** The program *)

(** [first_big_case(s)]: [s[0].upper() + s[1:]]; [s[0]] raises
    [IndexError] on the empty string. *)
Definition first_big_case (s : text) : E text :=
  let? c := getitem s 0 in
  Ok (upper [c] ++ drop 1 s).

(** [{prop for prop, _ in props}] *)
Definition prop_set (props : list (text * text)) : gset text :=
  list_to_set props.*1.

(** [a.symmetric_difference(b)] *)
Definition symmetric_difference (a b : gset text) : gset text :=
  (a ∖ b) ∪ (b ∖ a).

(** [repr] of a string made of word characters: no escape is needed. *)
Definition repr_str (s : text) : text := str "'" ++ s ++ str "'".

(** [str] of a set whose elements are iterated in the order [l]. *)
Definition set_str (l : list text) : text :=
  match l with
  | [] => str "set()"
  | _ => str "{" ++ join (str ", ") (repr_str <$> l) ++ str "}"
  end.

Definition root_error : text :=
  str "Error: QML file must contain ListModel as the root object.".

Definition no_element_error : text :=
  str "Error: No ListElement objects found.".

Definition mismatch_error (set_difference : list text) : text :=
  str "Error: All properties in model should be explicitly defined for every ListElement. Missing properties: "
  ++ set_str set_difference.

Definition usage_error : text :=
  str "Usage: python qml_to_cpp_model_generator.py <path-to-qml-file>".

Definition missing_file_error (qml_file : text) : text :=
  str "File '" ++ qml_file ++ str "' does not exist.".

Definition generated_message (header_file cpp_file : text) : text :=
  str "Generated " ++ header_file ++ str " and " ++ cpp_file ++ str ".".

(** [values[prop].append(val)] *)
Definition append_value (values : gmap text (list text)) (pv : text * text)
    : E (gmap text (list text)) :=
  let? l := getkey values pv.1 in
  Ok (<[pv.1 := l ++ [pv.2]]> values).

(** [", ".join([f"const QString &{prop}" for prop in properties])] *)
Definition insert_args (properties : list text) : text :=
  join (str ", ") ((λ prop, str "const QString &" ++ prop) <$> properties).

(** Lines 57 to 84: the header text. *)
Definition h_content (class_name : text) (properties : list text) : E text :=
  let h := str "#pragma once" ++ nl ++ nl in
  let h := h ++ str "#include <QAbstractListModel>" ++ nl
             ++ str "#include <QStringList>" ++ nl ++ nl in
  let h := h ++ str "class " ++ class_name ++ str " : public QAbstractListModel" ++ nl
             ++ str "{" ++ nl ++ str "    Q_OBJECT" ++ nl ++ str "public:" ++ nl in
  let h := h ++ str "    explicit " ++ class_name
             ++ str "(QObject *parent = nullptr);" ++ nl ++ nl in
  let h := h ++ str "    enum Roles {" ++ nl in
  let? h := foldE (λ h prop,
              let? big := first_big_case prop in
              Ok (h ++ str "        " ++ big ++ str "Role," ++ nl)) properties h in
  let h := h ++ str "    };" ++ nl ++ nl in
  let h := h ++ str "    int rowCount(const QModelIndex &parent = QModelIndex()) const override;" ++ nl in
  let h := h ++ str "    QVariant data(const QModelIndex &index, int role = Qt::DisplayRole) const override;" ++ nl in
  let h := h ++ str "    QHash<int, QByteArray> roleNames() const override;" ++ nl ++ nl in
  let h := h ++ str "private:" ++ nl in
  let h := foldl (λ h prop, h ++ str "    QStringList m_" ++ prop ++ str "s;" ++ nl)
             h properties in
  let h := h ++ nl ++ str "    void insert(" ++ insert_args properties ++ str ");" ++ nl in
  let h := h ++ str "    void populateModel();" ++ nl ++ str "};" ++ nl ++ nl in
  Ok h.

(** [values[prop][i].replace("qsTr(", "tr(")] *)
Definition call_arg (values : gmap text (list text)) (i : nat) (prop : text) : E text :=
  let? column := getkey values prop in
  let? v := getitem column i in
  Ok (replace (str "qsTr(") (str "tr(") v).

(** Lines 87 to 124: the source text. *)
Definition cpp_content (class_name : text) (properties : list text)
    (values : gmap text (list text)) (num_elements : nat) : E text :=
  let cpp := str "#include " ++ dq ++ lower class_name ++ str ".h" ++ dq ++ nl ++ nl in
  let cpp := cpp ++ class_name ++ str "::" ++ class_name ++ str "(QObject *parent)" ++ nl
               ++ str "    : QAbstractListModel(parent)" ++ nl ++ str "{" ++ nl
               ++ str "    populateModel();" ++ nl ++ str "}" ++ nl ++ nl in
  let cpp := cpp ++ str "// Returns the number of rows in the model" ++ nl in
  let cpp := cpp ++ str "int " ++ class_name
               ++ str "::rowCount(const QModelIndex &parent) const" ++ nl ++ str "{" ++ nl in
  let cpp := cpp ++ str "    if (parent.isValid())" ++ nl ++ str "        return 0;" ++ nl in
  let? first := getitem properties 0 in
  let cpp := cpp ++ str "    return static_cast<int>(m_" ++ first ++ str "s.size());" ++ nl
               ++ str "}" ++ nl ++ nl in
  let cpp := cpp ++ str "// Returns data for each role" ++ nl in
  let cpp := cpp ++ str "QVariant " ++ class_name
               ++ str "::data(const QModelIndex &index, int role) const" ++ nl ++ str "{" ++ nl in
  let cpp := cpp ++ str "    if (!index.isValid())" ++ nl
               ++ str "        return QVariant();" ++ nl ++ nl in
  let? cpp := foldE (λ cpp prop,
                let? big := first_big_case prop in
                let cpp := cpp ++ str "    if (role == " ++ big ++ str "Role)" ++ nl in
                Ok (cpp ++ str "        return m_" ++ prop ++ str "s.at(index.row());" ++ nl))
                properties cpp in
  let cpp := cpp ++ nl ++ str "    return QVariant();" ++ nl ++ str "}" ++ nl ++ nl in
  let cpp := cpp ++ str "// Returns role names to be used in QML" ++ nl in
  let cpp := cpp ++ str "QHash<int, QByteArray> " ++ class_name
               ++ str "::roleNames() const" ++ nl ++ str "{" ++ nl in
  let cpp := cpp ++ str "    QHash<int, QByteArray> roles;" ++ nl in
  let? cpp := foldE (λ cpp prop,
                let? big := first_big_case prop in
                Ok (cpp ++ str "    roles[" ++ big ++ str "Role] = " ++ dq ++ prop ++ dq
                        ++ str ";" ++ nl))
                properties cpp in
  let cpp := cpp ++ str "    return roles;" ++ nl ++ str "}" ++ nl ++ nl in
  let cpp := cpp ++ str "// Inserts a single entry into the model" ++ nl in
  let cpp := cpp ++ str "void " ++ class_name ++ str "::insert(" ++ insert_args properties
               ++ str ")" ++ nl ++ str "{" ++ nl in
  let cpp := foldl (λ cpp prop,
               cpp ++ str "    m_" ++ prop ++ str "s.append(" ++ prop ++ str ");" ++ nl)
               cpp properties in
  let cpp := cpp ++ str "}" ++ nl ++ nl in
  let cpp := cpp ++ str "// Populates the model with static data" ++ nl in
  let cpp := cpp ++ str "void " ++ class_name ++ str "::populateModel()" ++ nl ++ str "{" ++ nl in
  let? cpp := foldE (λ cpp i,
                let? args := mapE (call_arg values i) properties in
                let args_call := join (str ", ") args in
                Ok (cpp ++ str "    insert(" ++ args_call ++ str ");" ++ nl))
                (seq 0 num_elements) cpp in
  let cpp := cpp ++ str "}" ++ nl in
  Ok cpp.

Section Program.

(** The order in which this process iterates over a [set]. *)
Variable iter : gset text → list text.

(** The body of the loop of lines 42 to 51 for one [idx]. *)
Definition check_element (elements : list text) (properties : gset text)
    (values : gmap text (list text)) (idx : nat) : M (gmap text (list text)) :=
  let! element := lift (getitem elements idx) in
  let props := Re.findall_props element in
  let current_props := prop_set props in
  let! _ := if bool_decide (current_props ≠ properties) then
              let set_difference := symmetric_difference properties current_props in
              let! _ := print (mismatch_error (iter set_difference)) in
              sys_exit 1
            else ret tt in
  lift (foldE append_value props values).

Definition generate_cpp_class (qml_file_path : text) : M unit :=
  let base_name := (Path.splitext (Path.basename qml_file_path)).1 in
  let class_name := base_name in
  let! content := read_file qml_file_path in
  let! _ := if negb (Re.search_root true content) then
              let! _ := print root_error in
              sys_exit 1
            else ret tt in
  let elements := Re.findall_elements content in
  let num_elements := length elements in
  let! _ := if bool_decide (elements = []) then
              let! _ := print no_element_error in
              sys_exit 1
            else ret tt in
  let! element0 := lift (getitem elements 0) in
  let props := Re.findall_props element0 in
  let properties := prop_set props in
  let values := foldl (λ values prop, <[prop := []]> values) ∅ (iter properties) in
  let! values := lift (foldE append_value props values) in
  let! values := for_each (check_element elements properties)
                   (seq 1 (num_elements - 1)) values in
  let properties := sorted (iter properties) in
  let! h := lift (h_content class_name properties) in
  let! cpp := lift (cpp_content class_name properties values num_elements) in
  let output_dir := Path.dirname qml_file_path in
  let header_file := Path.join output_dir (lower class_name ++ str ".h") in
  let cpp_file := Path.join output_dir (lower class_name ++ str ".cpp") in
  let! _ := write_file header_file h in
  let! _ := write_file cpp_file cpp in
  print (generated_message header_file cpp_file).

(** The [__main__] block; [argv] is [sys.argv]. *)
Definition main (argv : list text) : M unit :=
  let! _ := if bool_decide (length argv ≠ 2) then
              let! _ := print usage_error in
              sys_exit 1
            else ret tt in
  let! qml_file := lift (getitem argv 1) in
  let! found := path_exists qml_file in
  let! _ := if negb found then
              let! _ := print (missing_file_error qml_file) in
              sys_exit 1
            else ret tt in
  generate_cpp_class qml_file.

End Program.

(** ** Vocabulary of the specification *)

(** Iterating over a set visits each of its elements once. *)
Definition set_order (iter : gset text → list text) : Prop :=
  ∀ X, iter X ≡ₚ elements X.

(** A record: the name and value pairs of one element block, in line
    order. *)
Abbreviation record := (list (text * text)).

(** The records of an input text, in source order. *)
Definition records (content : text) : list record :=
  Re.findall_props <$> Re.findall_elements content.

(** The schema: the property names of the first record, sorted. *)
Definition schema (r0 : record) : list text :=
  sorted (elements (prop_set r0)).

(** Runs of white space and of word characters. *)
Abbreviation spaces ws := (Forall (λ c, is_space c = true) ws).
Abbreviation words ws := (Forall (λ c, is_word c = true) ws).

(** A text of code points below 128. *)
Abbreviation ascii_text t := (Forall (λ c, is_ascii c = true) t).

(** The root marker, declaratively: at the start of a line, white space,
    the word [ListModel], white space, an opening brace. *)
Definition root_marker (content : text) : Prop :=
  ∃ pre ws1 ws2 post,
    content = pre ++ ws1 ++ str "ListModel" ++ ws2 ++ str "{" ++ post
    ∧ (pre = [] ∨ last pre = Some LF)
    ∧ spaces ws1
    ∧ spaces ws2.

(** An element block, declaratively: the word [ListElement], white space,
    and a pair of braces. *)
Definition element_block (content : text) : Prop :=
  ∃ pre ws body post,
    content = pre ++ str "ListElement" ++ ws ++ str "{" ++ body ++ str "}" ++ post
    ∧ spaces ws.

(** Some record after the first has another set of property names. *)
Definition schema_mismatch (recs : list record) : Prop :=
  ∃ r0 rs, recs = r0 :: rs ∧ Exists (λ r, prop_set r ≠ prop_set r0) rs.

(** The first record of [rs] whose set of names is not [S]. *)
Fixpoint first_mismatch (S : gset text) (rs : list record) : option record :=
  match rs with
  | [] => None
  | r :: rs' => if decide (prop_set r ≠ S) then Some r else first_mismatch S rs'
  end.

(** The values a record gives to [p], in line order. *)
Definition values_in (p : text) (r : record) : list text :=
  (filter (λ kv, kv.1 = p) r).*2.

(** The container of [p]: its values over all records, in source order. *)
Definition column (recs : list record) (p : text) : list text :=
  concat (values_in p <$> recs).

Definition columns (S : gset text) (recs : list record) : gmap text (list text) :=
  list_to_map ((λ p, (p, column recs p)) <$> elements S).


(** The fixed substitution applied to every value. *)
Definition translate (v : text) : text := replace (str "qsTr(") (str "tr(") v.

(** [s] occurs in [t] as a substring. *)
Definition occurs (s t : text) : Prop := ∃ pre post, t = pre ++ s ++ post.

(** The role identifier of a property: its first letter in upper case. *)
Definition capitalize (s : text) : text :=
  match s with
  | [] => []
  | c :: r => upper_char c :: r
  end.

(** *** The shape of the header *)

Definition enum_line (prop : text) : text :=
  str "        " ++ capitalize prop ++ str "Role," ++ nl.

Definition field_line (prop : text) : text :=
  str "    QStringList m_" ++ prop ++ str "s;" ++ nl.

Definition header_top (class_name : text) : text :=
  str "#pragma once" ++ nl ++ nl
  ++ str "#include <QAbstractListModel>" ++ nl ++ str "#include <QStringList>" ++ nl ++ nl
  ++ str "class " ++ class_name ++ str " : public QAbstractListModel" ++ nl
  ++ str "{" ++ nl ++ str "    Q_OBJECT" ++ nl ++ str "public:" ++ nl
  ++ str "    explicit " ++ class_name ++ str "(QObject *parent = nullptr);" ++ nl ++ nl
  ++ str "    enum Roles {" ++ nl.

Definition header_methods : text :=
  str "    };" ++ nl ++ nl
  ++ str "    int rowCount(const QModelIndex &parent = QModelIndex()) const override;" ++ nl
  ++ str "    QVariant data(const QModelIndex &index, int role = Qt::DisplayRole) const override;" ++ nl
  ++ str "    QHash<int, QByteArray> roleNames() const override;" ++ nl ++ nl
  ++ str "private:" ++ nl.

Definition header_bottom (props : list text) : text :=
  nl ++ str "    void insert(" ++ insert_args props ++ str ");" ++ nl
  ++ str "    void populateModel();" ++ nl ++ str "};" ++ nl ++ nl.

Definition header_text (class_name : text) (props : list text) : text :=
  header_top class_name
  ++ concat (enum_line <$> props)
  ++ header_methods
  ++ concat (field_line <$> props)
  ++ header_bottom props.

(** *** The shape of the source file *)

Definition cpp_constructor (class_name : text) : text :=
  str "#include " ++ dq ++ lower class_name ++ str ".h" ++ dq ++ nl ++ nl
  ++ class_name ++ str "::" ++ class_name ++ str "(QObject *parent)" ++ nl
  ++ str "    : QAbstractListModel(parent)" ++ nl ++ str "{" ++ nl
  ++ str "    populateModel();" ++ nl ++ str "}" ++ nl ++ nl.

(** The [rowCount] method, returning the size of the container of [prop]. *)
Definition cpp_row_count (class_name prop : text) : text :=
  str "// Returns the number of rows in the model" ++ nl
  ++ str "int " ++ class_name ++ str "::rowCount(const QModelIndex &parent) const" ++ nl
  ++ str "{" ++ nl
  ++ str "    if (parent.isValid())" ++ nl ++ str "        return 0;" ++ nl
  ++ str "    return static_cast<int>(m_" ++ prop ++ str "s.size());" ++ nl
  ++ str "}" ++ nl ++ nl.

Definition data_branch (prop : text) : text :=
  str "    if (role == " ++ capitalize prop ++ str "Role)" ++ nl
  ++ str "        return m_" ++ prop ++ str "s.at(index.row());" ++ nl.

Definition cpp_data (class_name : text) (props : list text) : text :=
  str "// Returns data for each role" ++ nl
  ++ str "QVariant " ++ class_name
  ++ str "::data(const QModelIndex &index, int role) const" ++ nl ++ str "{" ++ nl
  ++ str "    if (!index.isValid())" ++ nl ++ str "        return QVariant();" ++ nl ++ nl
  ++ concat (data_branch <$> props)
  ++ nl ++ str "    return QVariant();" ++ nl ++ str "}" ++ nl ++ nl.

Definition role_name_line (prop : text) : text :=
  str "    roles[" ++ capitalize prop ++ str "Role] = " ++ dq ++ prop ++ dq ++ str ";" ++ nl.

Definition cpp_role_names (class_name : text) (props : list text) : text :=
  str "// Returns role names to be used in QML" ++ nl
  ++ str "QHash<int, QByteArray> " ++ class_name ++ str "::roleNames() const" ++ nl
  ++ str "{" ++ nl
  ++ str "    QHash<int, QByteArray> roles;" ++ nl
  ++ concat (role_name_line <$> props)
  ++ str "    return roles;" ++ nl ++ str "}" ++ nl ++ nl.

Definition append_line (prop : text) : text :=
  str "    m_" ++ prop ++ str "s.append(" ++ prop ++ str ");" ++ nl.

Definition cpp_insert (class_name : text) (props : list text) : text :=
  str "// Inserts a single entry into the model" ++ nl
  ++ str "void " ++ class_name ++ str "::insert(" ++ insert_args props ++ str ")" ++ nl
  ++ str "{" ++ nl
  ++ concat (append_line <$> props)
  ++ str "}" ++ nl ++ nl.

(** One call of [insert] with the given argument texts. *)
Definition insert_call (args : list text) : text :=
  str "    insert(" ++ join (str ", ") args ++ str ");" ++ nl.

(** The [populateModel] method with the given calls as its body. *)
Definition cpp_populate (class_name : text) (calls : list text) : text :=
  str "// Populates the model with static data" ++ nl
  ++ str "void " ++ class_name ++ str "::populateModel()" ++ nl ++ str "{" ++ nl
  ++ concat calls
  ++ str "}" ++ nl.

Definition cpp_text (class_name : text) (props : list text) (calls : list text) : text :=
  cpp_constructor class_name
  ++ cpp_row_count class_name (default [] (head props))
  ++ cpp_data class_name props
  ++ cpp_role_names class_name props
  ++ cpp_insert class_name props
  ++ cpp_populate class_name calls.

(** The argument of call [i] for [prop], read from the containers. *)
Definition row_arg (values : gmap text (list text)) (i : nat) (prop : text) : text :=
  translate (default [] (values !! prop ≫= (.!! i))).

(** The calls emitted from the containers for rows [0 .. n-1]. *)
Definition populate_calls (props : list text) (values : gmap text (list text))
    (n : nat) : list text :=
  (λ i, insert_call (row_arg values i <$> props)) <$> seq 0 n.


(** *** Well-formed inputs *)




(** The paths of the two artifacts. *)
Definition class_name_of (qml_file_path : text) : text :=
  (Path.splitext (Path.basename qml_file_path)).1.

Definition header_file_of (qml_file_path : text) : text :=
  Path.join (Path.dirname qml_file_path) (lower (class_name_of qml_file_path) ++ str ".h").

Definition cpp_file_of (qml_file_path : text) : text :=
  Path.join (Path.dirname qml_file_path) (lower (class_name_of qml_file_path) ++ str ".cpp").

(** *** Runs in closed form *)

(** The world after one more line on standard output. *)
Definition printed (w : world) (line : text) : world :=
  World (files w) (stdout w ++ [line]).

(** The world after a successful generation for [qml_file_path]. *)
Definition generated (w : world) (qml_file_path h cpp : text) : world :=
  World (<[cpp_file_of qml_file_path := cpp]> (<[header_file_of qml_file_path := h]> (files w)))
        (stdout w ++ [generated_message (header_file_of qml_file_path)
                                         (cpp_file_of qml_file_path)]).

(** What [generate_cpp_class] does on a file whose text reads as
    [content]; proved equal to the program in [generate_summary]. *)
Definition generation (iter : gset text → list text) (qml_file_path content : text)
    (w : world) : run unit * world :=
  if negb (Re.search_root true content) then (Stops (SysExit 1), printed w root_error)
  else match records content with
       | [] => (Stops (SysExit 1), printed w no_element_error)
       | r0 :: rs =>
           match first_mismatch (prop_set r0) rs with
           | Some r =>
               (Stops (SysExit 1),
                printed w (mismatch_error
                             (iter (symmetric_difference (prop_set r0) (prop_set r)))))
           | None =>
               match r0 with
               | [] => (Stops (Uncaught IndexError), w)
               | _ =>
                   (Returns tt,
                    generated w qml_file_path
                      (header_text (class_name_of qml_file_path) (schema r0))
                      (cpp_text (class_name_of qml_file_path) (schema r0)
                         (populate_calls (schema r0)
                            (columns (prop_set r0) (r0 :: rs)) (length (r0 :: rs)))))
               end
           end
       end.

(** The five documented ways an invocation is turned down: wrong number
    of arguments, missing input file, no root marker, no element block,
    records with different names. *)
Definition rejected (argv : list text) (w : world) : Prop :=
  length argv ≠ 2
  ∨ ∃ prog qml_file,
      argv = [prog; qml_file]
      ∧ (files w !! qml_file = None
         ∨ ∃ data,
             files w !! qml_file = Some data
             ∧ (¬ root_marker (universal_newlines data)
                ∨ ¬ element_block (universal_newlines data)
                ∨ schema_mismatch (records (universal_newlines data)))).

(** [s in t], decided by trying every position. *)
Fixpoint occursb (s t : text) : bool :=
  startswith s t ||
  match t with
  | [] => false
  | _ :: r => occursb s r
  end.

(** *** Sample inputs *)

(** Two uniform records; the second lists its properties in another
    order and the first uses the translation marker. *)
Definition sample_model : text := str "ListModel {
    ListElement {
        name: apple
        cost: qsTr(low)
    }
    ListElement {
        cost: 2
        name: pear
    }
}
".

(** The second record has a property the first lacks. *)
Definition sample_extra : text := str "ListModel {
    ListElement {
        name: apple
    }
    ListElement {
        name: pear
        cost: 2
    }
}
".



(** Element blocks without any property. *)
Definition sample_bare : text := str "ListModel {
    ListElement {}
}
".

(** Two element blocks with different names, but no root marker. *)
Definition sample_rootless : text := str "ListElement { name: apple }
ListElement { cost: 2 }
".

Definition sample_path : text := str "qml/Fruit.qml".

(** A file system holding one input file, and nothing printed yet. *)
Definition sample_world (data : text) : world :=
  World {[ sample_path := data ]} [].

Definition sample_argv : list text := [str "listmodel-to-cpp.py"; sample_path].

(** ** The program over a file system that can refuse

    The definitions above run on a file system of regular, readable and
    writable files.  The same program is given here over a machine whose
    files can refuse: reading a path can raise (a directory, bytes that are
    not UTF-8, missing permission) and opening a path for writing can
    raise.  An output that can be opened is written whole.  Lower-casing is
    the parameter [str_lower], which stands for [str.lower] on the full
    character set. *)

Module Os.

(** For every existing path, what opening and reading it gives: its text
    or the exception raised; the paths that cannot be opened for writing,
    with the exception raised; and standard output. *)
Record disk := Disk {
  entries : gmap text (E text);
  refusals : gmap text exn;
  output : list text
}.

Definition IO (A : Type) : Type := disk → run A * disk.

Definition ret {A} (a : A) : IO A := λ d, (Returns a, d).

Definition bind {A B} (m : IO A) (k : A → IO B) : IO B :=
  λ d, match m d with
       | (Returns a, d') => k a d'
       | (Stops s, d') => (Stops s, d')
       end.

Notation "'let*' x := m 'in' k" := (bind m (λ x, k))
  (at level 10, x pattern, m at level 100, k at level 200).

Definition lift {A} (m : E A) : IO A :=
  λ d, match m with
       | Ok a => (Returns a, d)
       | Raise e => (Stops (Uncaught e), d)
       end.

(** [print(line)] *)
Definition print (line : text) : IO unit :=
  λ d, (Returns tt, Disk (entries d) (refusals d) (output d ++ [line])).

(** [sys.exit(status)] *)
Definition sys_exit {A} (status : Z) : IO A :=
  λ d, (Stops (SysExit status), d).

(** [with open(path, 'r', encoding='utf-8') as file: file.read()] *)
Definition read_file (path : text) : IO text :=
  λ d, match entries d !! path with
       | Some (Ok data) => (Returns (universal_newlines data), d)
       | Some (Raise e) => (Stops (Uncaught e), d)
       | None => (Stops (Uncaught FileNotFoundError), d)
       end.

(** [with open(path, 'w', encoding='utf-8') as f: f.write(data)] *)
Definition write_file (path data : text) : IO unit :=
  λ d, match refusals d !! path with
       | Some e => (Stops (Uncaught e), d)
       | None => (Returns tt, Disk (<[path := Ok data]> (entries d)) (refusals d) (output d))
       end.

(** [os.path.exists(path)]: true for every existing path, directories
    included. *)
Definition path_exists (path : text) : IO bool :=
  λ d, (Returns (bool_decide (is_Some (entries d !! path))), d).

Fixpoint for_each {A S} (body : S → A → IO S) (l : list A) (s : S) : IO S :=
  match l with
  | [] => ret s
  | x :: r => let* s' := body s x in for_each body r s'
  end.

Section Program.

(** The order in which this process iterates over a [set]. *)
Variable iter : gset text → list text.

(** [str.lower] *)
Variable str_lower : text → text.

(** Lines 87 to 124: the source text. *)
Definition cpp_content (class_name : text) (properties : list text)
    (values : gmap text (list text)) (num_elements : nat) : E text :=
  let cpp := str "#include " ++ dq ++ str_lower class_name ++ str ".h" ++ dq ++ nl ++ nl in
  let cpp := cpp ++ class_name ++ str "::" ++ class_name ++ str "(QObject *parent)" ++ nl
               ++ str "    : QAbstractListModel(parent)" ++ nl ++ str "{" ++ nl
               ++ str "    populateModel();" ++ nl ++ str "}" ++ nl ++ nl in
  let cpp := cpp ++ str "// Returns the number of rows in the model" ++ nl in
  let cpp := cpp ++ str "int " ++ class_name
               ++ str "::rowCount(const QModelIndex &parent) const" ++ nl ++ str "{" ++ nl in
  let cpp := cpp ++ str "    if (parent.isValid())" ++ nl ++ str "        return 0;" ++ nl in
  let? first := getitem properties 0 in
  let cpp := cpp ++ str "    return static_cast<int>(m_" ++ first ++ str "s.size());" ++ nl
               ++ str "}" ++ nl ++ nl in
  let cpp := cpp ++ str "// Returns data for each role" ++ nl in
  let cpp := cpp ++ str "QVariant " ++ class_name
               ++ str "::data(const QModelIndex &index, int role) const" ++ nl ++ str "{" ++ nl in
  let cpp := cpp ++ str "    if (!index.isValid())" ++ nl
               ++ str "        return QVariant();" ++ nl ++ nl in
  let? cpp := foldE (λ cpp prop,
                let? big := first_big_case prop in
                let cpp := cpp ++ str "    if (role == " ++ big ++ str "Role)" ++ nl in
                Ok (cpp ++ str "        return m_" ++ prop ++ str "s.at(index.row());" ++ nl))
                properties cpp in
  let cpp := cpp ++ nl ++ str "    return QVariant();" ++ nl ++ str "}" ++ nl ++ nl in
  let cpp := cpp ++ str "// Returns role names to be used in QML" ++ nl in
  let cpp := cpp ++ str "QHash<int, QByteArray> " ++ class_name
               ++ str "::roleNames() const" ++ nl ++ str "{" ++ nl in
  let cpp := cpp ++ str "    QHash<int, QByteArray> roles;" ++ nl in
  let? cpp := foldE (λ cpp prop,
                let? big := first_big_case prop in
                Ok (cpp ++ str "    roles[" ++ big ++ str "Role] = " ++ dq ++ prop ++ dq
                        ++ str ";" ++ nl))
                properties cpp in
  let cpp := cpp ++ str "    return roles;" ++ nl ++ str "}" ++ nl ++ nl in
  let cpp := cpp ++ str "// Inserts a single entry into the model" ++ nl in
  let cpp := cpp ++ str "void " ++ class_name ++ str "::insert(" ++ insert_args properties
               ++ str ")" ++ nl ++ str "{" ++ nl in
  let cpp := foldl (λ cpp prop,
               cpp ++ str "    m_" ++ prop ++ str "s.append(" ++ prop ++ str ");" ++ nl)
               cpp properties in
  let cpp := cpp ++ str "}" ++ nl ++ nl in
  let cpp := cpp ++ str "// Populates the model with static data" ++ nl in
  let cpp := cpp ++ str "void " ++ class_name ++ str "::populateModel()" ++ nl ++ str "{" ++ nl in
  let? cpp := foldE (λ cpp i,
                let? args := mapE (call_arg values i) properties in
                let args_call := join (str ", ") args in
                Ok (cpp ++ str "    insert(" ++ args_call ++ str ");" ++ nl))
                (seq 0 num_elements) cpp in
  let cpp := cpp ++ str "}" ++ nl in
  Ok cpp.

(** The body of the loop of lines 42 to 51 for one [idx]. *)
Definition check_element (elements : list text) (properties : gset text)
    (values : gmap text (list text)) (idx : nat) : IO (gmap text (list text)) :=
  let* element := lift (getitem elements idx) in
  let props := Re.findall_props element in
  let current_props := prop_set props in
  let* _ := if bool_decide (current_props ≠ properties) then
              let set_difference := symmetric_difference properties current_props in
              let* _ := print (mismatch_error (iter set_difference)) in
              sys_exit 1
            else ret tt in
  lift (foldE append_value props values).

Definition generate_cpp_class (qml_file_path : text) : IO unit :=
  let base_name := (Path.splitext (Path.basename qml_file_path)).1 in
  let class_name := base_name in
  let* content := read_file qml_file_path in
  let* _ := if negb (Re.search_root true content) then
              let* _ := print root_error in
              sys_exit 1
            else ret tt in
  let elements := Re.findall_elements content in
  let num_elements := length elements in
  let* _ := if bool_decide (elements = []) then
              let* _ := print no_element_error in
              sys_exit 1
            else ret tt in
  let* element0 := lift (getitem elements 0) in
  let props := Re.findall_props element0 in
  let properties := prop_set props in
  let values := foldl (λ values prop, <[prop := []]> values) ∅ (iter properties) in
  let* values := lift (foldE append_value props values) in
  let* values := for_each (check_element elements properties)
                   (seq 1 (num_elements - 1)) values in
  let properties := sorted (iter properties) in
  let* h := lift (h_content class_name properties) in
  let* cpp := lift (cpp_content class_name properties values num_elements) in
  let output_dir := Path.dirname qml_file_path in
  let header_file := Path.join output_dir (str_lower class_name ++ str ".h") in
  let cpp_file := Path.join output_dir (str_lower class_name ++ str ".cpp") in
  let* _ := write_file header_file h in
  let* _ := write_file cpp_file cpp in
  print (generated_message header_file cpp_file).

(** The [__main__] block; [argv] is [sys.argv]. *)
Definition main (argv : list text) : IO unit :=
  let* _ := if bool_decide (length argv ≠ 2) then
              let* _ := print usage_error in
              sys_exit 1
            else ret tt in
  let* qml_file := lift (getitem argv 1) in
  let* found := path_exists qml_file in
  let* _ := if negb found then
              let* _ := print (missing_file_error qml_file) in
              sys_exit 1
            else ret tt in
  generate_cpp_class qml_file.

End Program.

(** *** Runs in closed form *)

Definition printed (d : disk) (line : text) : disk :=
  Disk (entries d) (refusals d) (output d ++ [line]).

Definition written (d : disk) (path data : text) : disk :=
  Disk (<[path := Ok data]> (entries d)) (refusals d) (output d).

Definition header_file_of (str_lower : text → text) (qml_file_path : text) : text :=
  Path.join (Path.dirname qml_file_path)
    (str_lower (class_name_of qml_file_path) ++ str ".h").

Definition cpp_file_of (str_lower : text → text) (qml_file_path : text) : text :=
  Path.join (Path.dirname qml_file_path)
    (str_lower (class_name_of qml_file_path) ++ str ".cpp").

Definition cpp_constructor (str_lower : text → text) (class_name : text) : text :=
  str "#include " ++ dq ++ str_lower class_name ++ str ".h" ++ dq ++ nl ++ nl
  ++ class_name ++ str "::" ++ class_name ++ str "(QObject *parent)" ++ nl
  ++ str "    : QAbstractListModel(parent)" ++ nl ++ str "{" ++ nl
  ++ str "    populateModel();" ++ nl ++ str "}" ++ nl ++ nl.

Definition cpp_text (str_lower : text → text) (class_name : text) (props : list text)
    (calls : list text) : text :=
  cpp_constructor str_lower class_name
  ++ cpp_row_count class_name (default [] (head props))
  ++ cpp_data class_name props
  ++ cpp_role_names class_name props
  ++ cpp_insert class_name props
  ++ cpp_populate class_name calls.

(** The two artifacts of an input whose records are [r0 :: rs]. *)
Definition header_of (qml_file_path : text) (r0 : record) : text :=
  header_text (class_name_of qml_file_path) (schema r0).

Definition cpp_of (str_lower : text → text) (qml_file_path : text)
    (r0 : record) (rs : list record) : text :=
  cpp_text str_lower (class_name_of qml_file_path) (schema r0)
    (populate_calls (schema r0) (columns (prop_set r0) (r0 :: rs)) (length (r0 :: rs))).

(** What [generate_cpp_class] does on a path whose text reads as
    [content]; proved equal to the program in [os_generate_summary]. *)
Definition generation (iter : gset text → list text) (str_lower : text → text)
    (qml_file_path content : text) (d : disk) : run unit * disk :=
  if negb (Re.search_root true content) then (Stops (SysExit 1), printed d root_error)
  else match records content with
       | [] => (Stops (SysExit 1), printed d no_element_error)
       | r0 :: rs =>
           match first_mismatch (prop_set r0) rs with
           | Some r =>
               (Stops (SysExit 1),
                printed d (mismatch_error
                             (iter (symmetric_difference (prop_set r0) (prop_set r)))))
           | None =>
               match r0 with
               | [] => (Stops (Uncaught IndexError), d)
               | _ =>
                   match refusals d !! header_file_of str_lower qml_file_path with
                   | Some e => (Stops (Uncaught e), d)
                   | None =>
                       let d1 := written d (header_file_of str_lower qml_file_path)
                                   (header_of qml_file_path r0) in
                       match refusals d !! cpp_file_of str_lower qml_file_path with
                       | Some e => (Stops (Uncaught e), d1)
                       | None =>
                           (Returns tt,
                            printed
                              (written d1 (cpp_file_of str_lower qml_file_path)
                                 (cpp_of str_lower qml_file_path r0 rs))
                              (generated_message (header_file_of str_lower qml_file_path)
                                 (cpp_file_of str_lower qml_file_path)))
                       end
                   end
               end
           end
       end.

(** The five documented ways an invocation is turned down. *)
Definition rejected (argv : list text) (d : disk) : Prop :=
  length argv ≠ 2
  ∨ ∃ prog qml_file,
      argv = [prog; qml_file]
      ∧ (entries d !! qml_file = None
         ∨ ∃ data,
             entries d !! qml_file = Some (Ok data)
             ∧ (¬ root_marker (universal_newlines data)
                ∨ ¬ element_block (universal_newlines data)
                ∨ schema_mismatch (records (universal_newlines data)))).

(** An input that passes every check and has a property to generate
    from. *)
Definition accepted (content : text) (r0 : record) (rs : list record) : Prop :=
  root_marker content
  ∧ records content = r0 :: rs
  ∧ r0 ≠ []
  ∧ Forall (λ r, prop_set r = prop_set r0) rs.


End Os.

(** * Lemmas *)

(** ** Characters and scans *)

Lemma code_inj (a b : ascii) : code a = code b → a = b.
Proof.
  unfold code. intros H.
  rewrite <- (ascii_N_embedding a), <- (ascii_N_embedding b). by rewrite H.
Qed.

Lemma char_eqb_eq (a b : ascii) : char_eqb a b = true ↔ a = b.
Proof.
  unfold char_eqb. rewrite N.eqb_eq. split; [apply code_inj | by intros ->].
Qed.

Lemma char_eqb_refl (a : ascii) : char_eqb a a = true.
Proof. by apply char_eqb_eq. Qed.

Lemma char_eqb_neq (a b : ascii) : char_eqb a b = false ↔ a ≠ b.
Proof.
  rewrite <- char_eqb_eq. destruct (char_eqb a b); split; congruence.
Qed.

Lemma take_drop_while (p : ascii → bool) (s : text) :
  take_while p s ++ drop_while p s = s.
Proof. induction s as [|c r IH]; simpl; [done|]. destruct (p c); simpl; congruence. Qed.

Lemma Forall_take_while (p : ascii → bool) (s : text) :
  Forall (λ c, p c = true) (take_while p s).
Proof.
  induction s as [|c r IH]; simpl; [constructor|].
  destruct (p c) eqn:E; by constructor.
Qed.

Lemma drop_while_head (p : ascii → bool) (s : text) c r :
  drop_while p s = c :: r → p c = false.
Proof.
  induction s as [|x s IH]; simpl; [done|].
  destruct (p x) eqn:E; [done|]. intros [= <- <-]. done.
Qed.

Lemma take_while_app (p : ascii → bool) (ws : text) (c : ascii) (r : text) :
  Forall (λ c, p c = true) ws → p c = false →
  take_while p (ws ++ c :: r) = ws.
Proof.
  intros Hws Hc. induction Hws as [|x ws Hx _ IH]; simpl.
  - by rewrite Hc.
  - by rewrite Hx, IH.
Qed.

Lemma drop_while_app (p : ascii → bool) (ws : text) (c : ascii) (r : text) :
  Forall (λ c, p c = true) ws → p c = false →
  drop_while p (ws ++ c :: r) = c :: r.
Proof.
  intros Hws Hc. induction Hws as [|x ws Hx _ IH]; simpl.
  - by rewrite Hc.
  - by rewrite Hx, IH.
Qed.

Lemma take_while_all (p : ascii → bool) (ws : text) :
  Forall (λ c, p c = true) ws → take_while p ws = ws ∧ drop_while p ws = [].
Proof.
  induction 1 as [|x ws Hx _ [IH1 IH2]]; simpl; [done|]. by rewrite Hx, IH1, IH2.
Qed.

Lemma drop_while_length (p : ascii → bool) (s : text) :
  length (drop_while p s) ≤ length s.
Proof. induction s as [|c r IH]; simpl; [lia|]. destruct (p c); simpl; lia. Qed.

Lemma after_prefix_spec (p s r : text) : after_prefix p s = Some r ↔ s = p ++ r.
Proof.
  revert s. induction p as [|a p IH]; intros s; simpl.
  - split; congruence.
  - destruct s as [|b s]; [split; [done | by intros [=]]|].
    destruct (char_eqb a b) eqn:E.
    + apply char_eqb_eq in E as ->. rewrite IH. split; [by intros -> | by intros [=]].
    + apply char_eqb_neq in E. split; [done | intros [=]; congruence].
Qed.

Lemma after_prefix_app (p r : text) : after_prefix p (p ++ r) = Some r.
Proof. by apply after_prefix_spec. Qed.

Lemma startswith_spec (p s : text) : startswith p s = true ↔ ∃ r, s = p ++ r.
Proof.
  unfold startswith. destruct (after_prefix p s) as [r|] eqn:E.
  - apply after_prefix_spec in E. split; eauto.
  - split; [done|]. intros [r Hr]. apply after_prefix_spec in Hr. congruence.
Qed.

(** ** [re.findall] *)

Section findall.
Context {A : Type} (here : text → option (A * text)).

Lemma findall_from_skip (n : nat) (s : text) :
  Re.findall_from here n s = Re.findall_from here 0 (drop n s).
Proof.
  revert n. induction s as [|c r IH]; intros [|n]; simpl; auto.
Qed.

(** A match consumes at least one character and leaves a suffix. *)
Hypothesis here_suffix :
  ∀ s x rest, here s = Some (x, rest) → ∃ pre, pre ≠ [] ∧ s = pre ++ rest.

Lemma findall_match (s : text) x rest :
  here s = Some (x, rest) →
  Re.findall_from here 0 s = x :: Re.findall_from here 0 rest.
Proof.
  intros H. destruct (here_suffix _ _ _ H) as (pre & Hpre & ->).
  destruct pre as [|c pre]; [done|]. simpl in *. rewrite H. f_equal.
  rewrite findall_from_skip. f_equal.
  rewrite !length_app.
  replace (S (length pre + length rest) - length rest - 1) with (length pre) by lia.
  by rewrite drop_app_length.
Qed.

Lemma findall_no_match (c : ascii) (r : text) :
  here (c :: r) = None →
  Re.findall_from here 0 (c :: r) = Re.findall_from here 0 r.
Proof. intros H. simpl. by rewrite H. Qed.

(** Every result of [findall] is captured by a match at some position. *)
Lemma findall_elem (s : text) (x : A) :
  x ∈ Re.findall_from here 0 s → ∃ pre t rest, s = pre ++ t ∧ here t = Some (x, rest).
Proof.
  remember (length s) as n eqn:Hn. revert s Hn.
  induction (lt_wf n) as [n _ IH]; intros s -> Hx.
  destruct s as [|c r]; [by apply elem_of_nil in Hx|].
  destruct (here (c :: r)) as [[y rest]|] eqn:E.
  - rewrite (findall_match _ _ _ E) in Hx.
    apply elem_of_cons in Hx as [->|Hx]; [by exists [], (c :: r), rest|].
    destruct (here_suffix _ _ _ E) as (pre & Hpre & Hs).
    destruct (IH (length rest)) with (s := rest) as (pre' & t & rest' & -> & Ht); try done.
    { rewrite Hs, length_app. destruct pre; [done|]. simpl. lia. }
    exists (pre ++ pre'), t, rest'. split; [|done]. by rewrite Hs, <- (assoc_L (++)).
  - rewrite (findall_no_match _ _ E) in Hx.
    destruct (IH (length r)) with (s := r) as (pre' & t & rest' & -> & Ht); try done.
    { simpl. lia. }
    by exists (c :: pre'), t, rest'.
Qed.

(** Nothing is found exactly when the pattern matches nowhere. *)
Lemma findall_nil (s : text) :
  Re.findall_from here 0 s = [] ↔ ∀ pre t, s = pre ++ t → here t = None.
Proof.
  induction s as [|c r IH].
  - split; [|done]. intros _ pre t Ht.
    symmetry in Ht. apply app_eq_nil in Ht as [_ ->].
    destruct (here []) as [[x rest]|] eqn:E; [|done].
    destruct (here_suffix _ _ _ E) as (pre' & Hpre & Hs).
    symmetry in Hs. by apply app_eq_nil in Hs as [-> _].
  - split.
    + intros Hnil pre t Ht.
      destruct (here (c :: r)) as [[x rest]|] eqn:E.
      { by rewrite (findall_match _ _ _ E) in Hnil. }
      rewrite (findall_no_match _ _ E) in Hnil.
      destruct pre as [|c' pre]; simpl in Ht; [by subst|].
      injection Ht as -> ->. by eapply IH.
    + intros Hno.
      rewrite findall_no_match by (by apply (Hno [])).
      apply IH. intros pre t ->. by apply (Hno (c :: pre)).
Qed.

End findall.

(** ** The three patterns against their declarative reading *)

Lemma not_char_false (x c : ascii) : Re.not_char x c = false ↔ c = x.
Proof.
  unfold Re.not_char. rewrite negb_false_iff. apply char_eqb_eq.
Qed.

Lemma not_char_true (x c : ascii) : Re.not_char x c = true ↔ c ≠ x.
Proof.
  unfold Re.not_char. rewrite negb_true_iff. apply char_eqb_neq.
Qed.

Lemma Forall_not_char (x : ascii) (s : text) :
  Forall (λ c, Re.not_char x c = true) s ↔ x ∉ s.
Proof.
  rewrite Forall_forall. split.
  - intros H Hx. apply H in Hx. apply not_char_true in Hx. done.
  - intros H c Hc. apply not_char_true. intros ->. done.
Qed.

(** [\s*ListModel\s*{] matches at the start of [s] exactly when [s] begins
    with white space, the word, white space and a brace: the greedy runs
    lose no match. *)
Lemma match_root_here_spec (s : text) :
  Re.match_root_here s = true ↔
  ∃ ws1 ws2 post,
    s = ws1 ++ str "ListModel" ++ ws2 ++ str "{" ++ post ∧ spaces ws1 ∧ spaces ws2.
Proof.
  unfold Re.match_root_here. split.
  - destruct (after_prefix _ (drop_while is_space s)) as [r|] eqn:E; [|done].
    apply after_prefix_spec in E. intros [post Hpost]%startswith_spec.
    exists (take_while is_space s), (take_while is_space r), post.
    split_and!; try apply Forall_take_while.
    rewrite <- Hpost, take_drop_while, <- E. by rewrite take_drop_while.
  - intros (ws1 & ws2 & post & -> & H1 & H2).
    change (str "ListModel" ++ ws2 ++ str "{" ++ post)
      with ("L" :: str "istModel" ++ ws2 ++ str "{" ++ post).
    rewrite drop_while_app by done.
    change ("L" :: str "istModel" ++ ws2 ++ str "{" ++ post)
      with (str "ListModel" ++ ws2 ++ "{" :: post).
    rewrite after_prefix_app, drop_while_app by done.
    apply startswith_spec. by exists post.
Qed.

Lemma search_root_spec_gen (bol : bool) (s : text) :
  Re.search_root bol s = true ↔
  ∃ pre ws1 ws2 post,
    s = pre ++ ws1 ++ str "ListModel" ++ ws2 ++ str "{" ++ post
    ∧ ((pre = [] ∧ bol = true) ∨ last pre = Some LF)
    ∧ spaces ws1 ∧ spaces ws2.
Proof.
  revert bol. induction s as [|c r IH]; intros bol.
  - split.
    + simpl. rewrite andb_false_r. done.
    + intros (pre & ws1 & ws2 & post & H & _). apply (f_equal length) in H.
      rewrite !length_app in H. simpl in H. lia.
  - change (Re.search_root bol (c :: r))
      with ((bol && Re.match_root_here (c :: r)) || Re.search_root (char_eqb c LF) r).
    rewrite orb_true_iff, andb_true_iff, IH, match_root_here_spec. split.
    + intros [[-> (ws1 & ws2 & post & H & H1 & H2)] | (pre & ws1 & ws2 & post & H & Hp & H1 & H2)].
      * exists [], ws1, ws2, post. split_and!; try done. by left.
      * exists (c :: pre), ws1, ws2, post. split_and!; try done.
        { simpl. by rewrite H. }
        right. destruct Hp as [[-> Hc] | Hp].
        -- apply char_eqb_eq in Hc as ->. done.
        -- destruct pre; [done|]. done.
    + intros (pre & ws1 & ws2 & post & H & Hp & H1 & H2).
      destruct pre as [|c' pre].
      * destruct Hp as [[_ ->] | Hp]; [|done]. left. split; [done|].
        by exists ws1, ws2, post.
      * right. simpl in H. injection H as -> ->.
        exists pre, ws1, ws2, post. split_and!; try done.
        destruct Hp as [[? _] | Hp]; [done|].
        destruct pre as [|c'' pre]; [|by right].
        left. split; [done|]. simpl in Hp. injection Hp as ->. apply char_eqb_refl.
Qed.

(** The search of line 19 succeeds exactly on the texts that hold the
    root marker. *)
Lemma search_root_spec (content : text) :
  Re.search_root true content = true ↔ root_marker content.
Proof.
  rewrite search_root_spec_gen. unfold root_marker.
  split; intros (pre & ws1 & ws2 & post & H & Hp & H1 & H2);
    exists pre, ws1, ws2, post; (split_and!; try done);
    destruct Hp as [Hp|Hp]; (by left) || (by right) || (left; by destruct Hp).
Qed.

(** [ListElement \s* { ( [^}]* ) }] at the start of [s]: the body runs up
    to the first closing brace. *)
Lemma match_element_here_spec (s body rest : text) :
  Re.match_element_here s = Some (body, rest) ↔
  ∃ ws, s = str "ListElement" ++ ws ++ str "{" ++ body ++ str "}" ++ rest
        ∧ spaces ws ∧ "}" ∉ body.
Proof.
  unfold Re.match_element_here. split.
  - destruct (after_prefix _ s) as [r|] eqn:E; [|done].
    apply after_prefix_spec in E.
    destruct (drop_while is_space r) as [|c r'] eqn:Er; [done|].
    destruct (char_eqb c "{") eqn:Ec; [|done]. apply char_eqb_eq in Ec as ->.
    destruct (drop_while (Re.not_char "}") r') as [|d rest'] eqn:Ed; [done|].
    intros [= <- <-].
    pose proof (drop_while_head _ _ _ _ Ed) as Hd. apply not_char_false in Hd as ->.
    exists (take_while is_space r). split_and!.
    + rewrite E. f_equal. rewrite <- (take_drop_while is_space r) at 1. f_equal.
      rewrite Er. simpl. f_equal.
      rewrite <- (take_drop_while (Re.not_char "}") r') at 1. by rewrite Ed.
    + apply Forall_take_while.
    + apply Forall_not_char, Forall_take_while.
  - intros (ws & -> & Hws & Hbody).
    rewrite after_prefix_app.
    change (ws ++ str "{" ++ body ++ str "}" ++ rest) with (ws ++ "{" :: body ++ "}" :: rest).
    rewrite drop_while_app by done. simpl.
    apply Forall_not_char in Hbody.
    rewrite drop_while_app, take_while_app by (done || by apply not_char_false).
    done.
Qed.

Lemma match_element_here_suffix (s body rest : text) :
  Re.match_element_here s = Some (body, rest) → ∃ pre, pre ≠ [] ∧ s = pre ++ rest.
Proof.
  intros (ws & -> & _)%match_element_here_spec.
  exists (str "ListElement" ++ ws ++ str "{" ++ body ++ str "}").
  split; [done|]. by rewrite <- !(assoc_L (++)).
Qed.

(** A body captured by line 24 holds no closing brace. *)
Lemma findall_elements_body (content body : text) :
  body ∈ Re.findall_elements content → "}" ∉ body.
Proof.
  intros (pre & t & rest & _ & H)%findall_elem.
  - by apply match_element_here_spec in H as (ws & _ & _ & Hbody).
  - intros s b r. apply match_element_here_suffix.
Qed.

(** Line 24 finds nothing exactly when the text holds no element block. *)
Lemma findall_elements_nil (content : text) :
  Re.findall_elements content = [] ↔ ¬ element_block content.
Proof.
  unfold Re.findall_elements.
  rewrite findall_nil by (intros s b r; apply match_element_here_suffix).
  split.
  - intros Hno (pre & ws & body & post & -> & Hws).
    (* the body of the match stops at the first closing brace *)
    pose proof (take_drop_while (Re.not_char "}") (body ++ str "}" ++ post)) as Hsplit.
    destruct (drop_while (Re.not_char "}") (body ++ str "}" ++ post)) as [|d rest] eqn:Ed.
    { pose proof (Forall_take_while (Re.not_char "}") (body ++ str "}" ++ post)) as Hall.
      rewrite app_nil_r in Hsplit. rewrite Hsplit in Hall.
      apply Forall_not_char in Hall. apply Hall. set_solver. }
    pose proof (drop_while_head _ _ _ _ Ed) as Hd. apply not_char_false in Hd as ->.
    specialize (Hno pre _ eq_refl).
    assert (Re.match_element_here
              (str "ListElement" ++ ws ++ str "{" ++ body ++ str "}" ++ post)
            = Some (take_while (Re.not_char "}") (body ++ str "}" ++ post), rest)) as Hm.
    { apply match_element_here_spec. exists ws. split_and!; [|done|].
      - do 3 f_equal. by rewrite <- Hsplit at 1.
      - apply Forall_not_char, Forall_take_while. }
    congruence.
  - intros Hno pre t ->.
    destruct (Re.match_element_here t) as [[body rest]|] eqn:E; [|done].
    apply match_element_here_spec in E as (ws & -> & Hws & _).
    destruct Hno. by exists pre, ws, body, rest.
Qed.

Lemma is_space_not_word (c : ascii) : is_space c = true → is_word c = false.
Proof.
  unfold is_space, is_word, in_range.
  rewrite !orb_true_iff, !andb_true_iff, !N.leb_le.
  intros H. rewrite !orb_false_iff, !andb_false_iff, !N.leb_gt, N.eqb_neq. lia.
Qed.

(** [( \w+ ) \s* : \s* ( .* )] at the start of [s]: the name is the whole
    run of word characters, the value starts after the white space that
    follows the colon and runs to the end of the line. *)
Lemma match_prop_here_spec (s name v rest : text) :
  Re.match_prop_here s = Some ((name, v), rest) ↔
  ∃ ws1 ws2,
    s = name ++ ws1 ++ str ":" ++ ws2 ++ v ++ rest
    ∧ (name ≠ []) ∧ words name ∧ spaces ws1 ∧ spaces ws2
    ∧ (LF ∉ v)
    ∧ (∀ c, head (v ++ rest) = Some c → is_space c = false)
    ∧ (rest = [] ∨ head rest = Some LF).
Proof.
  unfold Re.match_prop_here. split.
  - pose proof (take_drop_while is_word s) as Hs.
    pose proof (Forall_take_while is_word s) as Hw.
    destruct (take_while is_word s) as [|n0 nm] eqn:En; [done|].
    pose proof (take_drop_while is_space (drop_while is_word s)) as Hs1.
    destruct (drop_while is_space (drop_while is_word s)) as [|c r] eqn:E1; [done|].
    destruct (char_eqb c ":") eqn:Ec; [|done]. apply char_eqb_eq in Ec as ->.
    intros [= <- <- <-].
    exists (take_while is_space (drop_while is_word s)), (take_while is_space r).
    split_and!; try done; try apply Forall_take_while.
    + rewrite <- Hs at 1. f_equal.
      rewrite <- Hs1 at 1. f_equal. simpl. f_equal.
      rewrite (take_drop_while (Re.not_char LF)). by rewrite take_drop_while.
    + apply Forall_not_char, Forall_take_while.
    + rewrite take_drop_while. intros c Hc.
      destruct (drop_while is_space r) as [|d r'] eqn:Ed; [done|].
      injection Hc as ->. by eapply drop_while_head.
    + destruct (drop_while (Re.not_char LF) (drop_while is_space r)) as [|d r'] eqn:Ed;
        [by left | right].
      apply drop_while_head in Ed. by apply not_char_false in Ed as ->.
  - intros (ws1 & ws2 & -> & Hne & Hname & Hws1 & Hws2 & Hv & Hhd & Hrest).
    assert (take_while is_word (name ++ ws1 ++ str ":" ++ ws2 ++ v ++ rest) = name
            ∧ drop_while is_word (name ++ ws1 ++ str ":" ++ ws2 ++ v ++ rest)
              = ws1 ++ str ":" ++ ws2 ++ v ++ rest) as [-> ->].
    { destruct ws1 as [|w ws1].
      - change ([] ++ str ":" ++ ws2 ++ v ++ rest) with (":" :: ws2 ++ v ++ rest).
        by rewrite take_while_app, drop_while_app.
      - simpl. apply Forall_cons in Hws1 as [Hw _].
        by rewrite take_while_app, drop_while_app by (done || by apply is_space_not_word). }
    destruct name as [|n0 nm]; [done|].
    change (ws1 ++ str ":" ++ ws2 ++ v ++ rest) with (ws1 ++ ":" :: ws2 ++ v ++ rest).
    rewrite drop_while_app by done. simpl.
    assert (drop_while is_space (ws2 ++ v ++ rest) = v ++ rest) as ->.
    { destruct (v ++ rest) as [|d r'] eqn:Evr.
      - rewrite app_nil_r. by apply take_while_all.
      - apply drop_while_app; [done|]. by apply Hhd. }
    apply Forall_not_char in Hv.
    destruct Hrest as [-> | Hrest].
    + rewrite app_nil_r. by destruct (take_while_all _ _ Hv) as [-> ->].
    + destruct rest as [|d rest]; [done|]. injection Hrest as ->.
      by rewrite take_while_app, drop_while_app by (done || by apply not_char_false).
Qed.

Lemma match_prop_here_suffix (s : text) x rest :
  Re.match_prop_here s = Some (x, rest) → ∃ pre, pre ≠ [] ∧ s = pre ++ rest.
Proof.
  destruct x as [name v].
  intros (ws1 & ws2 & -> & Hne & _)%match_prop_here_spec.
  exists (name ++ ws1 ++ str ":" ++ ws2 ++ v). split.
  - by destruct name.
  - by rewrite <- !(assoc_L (++)).
Qed.

(** What line 34 and line 43 hand to the rest of the program: names are
    non-empty runs of word characters, values hold no line feed. *)
Lemma findall_props_elem (element name v : text) :
  (name, v) ∈ Re.findall_props element → name ≠ [] ∧ words name ∧ LF ∉ v.
Proof.
  intros (pre & t & rest & _ & H)%findall_elem.
  - by apply match_prop_here_spec in H as (ws1 & ws2 & _ & Hne & Hw & _ & _ & Hv & _).
  - apply match_prop_here_suffix.
Qed.

(** ** The order of strings and [sorted] *)

Global Instance text_le_total : Total text_le.
Proof.
  intros a. unfold text_le. induction a as [|x a IH]; intros [|y b]; simpl; auto.
  destruct (IH b) as [H|H]; rewrite ?H;
    destruct (N.ltb_spec (code x) (code y)), (N.ltb_spec (code y) (code x)),
             (N.eqb_spec (code x) (code y)), (N.eqb_spec (code y) (code x));
    auto; lia.
Qed.

Global Instance text_le_trans : Transitive text_le.
Proof.
  intros a. unfold text_le. induction a as [|x a IH]; intros [|y b] [|z c]; simpl; auto; try done.
  destruct (N.ltb_spec (code x) (code y)), (N.ltb_spec (code y) (code z)),
           (N.ltb_spec (code x) (code z)),
           (N.eqb_spec (code x) (code y)), (N.eqb_spec (code y) (code z)),
           (N.eqb_spec (code x) (code z));
    try done; try lia; intros; try (exfalso; lia).
  eapply IH; eauto.
Qed.

Global Instance text_le_antisym : AntiSymm (=) text_le.
Proof.
  intros a. unfold text_le. induction a as [|x a IH]; intros [|y b]; simpl; auto; try done.
  destruct (N.ltb_spec (code x) (code y)), (N.ltb_spec (code y) (code x)),
           (N.eqb_spec (code x) (code y)), (N.eqb_spec (code y) (code x));
    try done; try lia.
  intros H1 H2. f_equal; [by apply code_inj | by apply IH].
Qed.

Lemma sorted_Sorted (l : list text) : StronglySorted text_le (sorted l).
Proof. apply StronglySorted_merge_sort; apply _. Qed.

Lemma sorted_Permutation (l : list text) : sorted l ≡ₚ l.
Proof. apply merge_sort_Permutation. Qed.

(** [sorted] does not depend on the order of its argument. *)
Lemma sorted_perm (l1 l2 : list text) : l1 ≡ₚ l2 → sorted l1 = sorted l2.
Proof.
  intros H. apply (StronglySorted_unique text_le); try apply sorted_Sorted.
  by rewrite !sorted_Permutation.
Qed.

Lemma sorted_iter (iter : gset text → list text) (X : gset text) :
  set_order iter → sorted (iter X) = sorted (elements X).
Proof. intros H. apply sorted_perm, H. Qed.

Lemma elem_of_prop_set (r : record) (p : text) :
  p ∈ prop_set r ↔ ∃ v, (p, v) ∈ r.
Proof.
  unfold prop_set. rewrite elem_of_list_to_set, list_elem_of_fmap. split.
  - intros ([k v] & -> & H). by exists v.
  - intros [v H]. by exists (p, v).
Qed.

Lemma prop_set_empty (r : record) : prop_set r = ∅ ↔ r = [].
Proof.
  split; [|by intros ->].
  destruct r as [|[k v] r]; [done|]. intros H.
  assert (k ∈ prop_set ((k, v) :: r)) as Hk by (apply elem_of_prop_set; exists v; left).
  rewrite H in Hk. set_solver.
Qed.

Lemma elem_of_schema (r0 : record) (p : text) : p ∈ schema r0 ↔ p ∈ prop_set r0.
Proof. unfold schema. by rewrite sorted_Permutation, elem_of_elements. Qed.


Lemma schema_length (r0 : record) : length (schema r0) = size (prop_set r0).
Proof. unfold schema. by rewrite sorted_Permutation. Qed.

Lemma schema_nil (r0 : record) : schema r0 = [] ↔ r0 = [].
Proof.
  rewrite <- prop_set_empty. split.
  - intros H. apply set_eq. intros p. rewrite <- elem_of_schema, H. set_solver.
  - intros H. apply length_zero_iff_nil. rewrite schema_length, H. done.
Qed.




(** ** The containers [values] *)

Lemma columns_lookup (S : gset text) (recs : list record) (p : text) :
  columns S recs !! p = if decide (p ∈ S) then Some (column recs p) else None.
Proof.
  unfold columns. destruct (decide (p ∈ S)) as [Hp|Hp].
  - apply elem_of_list_to_map.
    + rewrite <- list_fmap_compose. simpl. rewrite list_fmap_id. apply NoDup_elements.
    + apply list_elem_of_fmap. exists p. split; [done|]. by apply elem_of_elements.
  - apply not_elem_of_list_to_map.
    rewrite <- list_fmap_compose. simpl. rewrite list_fmap_id. by rewrite elem_of_elements.
Qed.

Lemma columns_dom (S : gset text) (recs : list record) : dom (columns S recs) = S.
Proof.
  apply set_eq. intros p. rewrite elem_of_dom, columns_lookup.
  destruct (decide (p ∈ S)); split; (done || by intros [? ?] || eauto).
Qed.

(** Lines 36 and 37: one empty container per property. *)
Lemma init_values_lookup (l : list text) (m : gmap text (list text)) (p : text) :
  foldl (λ values prop, <[prop := []]> values) m l !! p
  = if decide (p ∈ l) then Some [] else m !! p.
Proof.
  revert m. induction l as [|q l IH]; intros m; simpl.
  - destruct (decide (p ∈ [])) as [H|_]; [by apply elem_of_nil in H | done].
  - rewrite IH. destruct (decide (p ∈ l)) as [Hl|Hl].
    + rewrite decide_True by (by right). done.
    + destruct (decide (p = q)) as [->|Hne].
      * rewrite lookup_insert_eq, decide_True by (by left). done.
      * rewrite lookup_insert_ne by done.
        rewrite decide_False; [done|]. intros [?|?]%elem_of_cons; done.
Qed.

Lemma init_values (iter : gset text → list text) (S : gset text) :
  set_order iter →
  foldl (λ values prop, <[prop := []]> values) ∅ (iter S) = columns S [].
Proof.
  intros Hiter. apply map_eq. intros p.
  rewrite init_values_lookup, columns_lookup.
  destruct (decide (p ∈ iter S)) as [H|H], (decide (p ∈ S)) as [H'|H']; try done.
  - rewrite (Hiter S), elem_of_elements in H. done.
  - rewrite (Hiter S), elem_of_elements in H. done.
Qed.

Lemma values_in_cons (p k v : text) (r : record) :
  values_in p ((k, v) :: r) = if decide (k = p) then v :: values_in p r else values_in p r.
Proof.
  unfold values_in. rewrite filter_cons. simpl.
  destruct (decide (k = p)); done.
Qed.

Lemma column_snoc (recs : list record) (r : record) (p : text) :
  column (recs ++ [r]) p = column recs p ++ values_in p r.
Proof.
  unfold column. rewrite fmap_app, concat_app. simpl. by rewrite app_nil_r.
Qed.

Lemma column_cons (recs : list record) (r : record) (p : text) :
  column (r :: recs) p = values_in p r ++ column recs p.
Proof. done. Qed.


(** Lines 39-40 and 50-51: every value of the record is appended to the
    container of its name; no [KeyError] when the names have containers. *)
Lemma fill_values (props : record) (values : gmap text (list text)) :
  prop_set props ⊆ dom values →
  ∃ values',
    foldE append_value props values = Ok values'
    ∧ ∀ p, values' !! p = (λ l, l ++ values_in p props) <$> values !! p.
Proof.
  revert values. induction props as [|[k v] props IH]; intros values Hdom.
  - exists values. split; [done|]. intros p. unfold values_in. simpl.
    destruct (values !! p); simpl; by rewrite ?app_nil_r.
  - assert (k ∈ dom values) as Hk.
    { apply Hdom, elem_of_prop_set. exists v. by left. }
    apply elem_of_dom in Hk as [l Hl].
    destruct (IH (<[k := l ++ [v]]> values)) as (values' & Hfold & Hlook).
    { rewrite dom_insert_L. intros p Hp. apply elem_of_union. right. apply Hdom.
      apply elem_of_prop_set in Hp as [v' Hv']. apply elem_of_prop_set. exists v'. by right. }
    exists values'. split.
    + simpl. unfold append_value at 1, getkey. simpl. rewrite Hl. simpl. done.
    + intros p. rewrite Hlook, values_in_cons.
      destruct (decide (k = p)) as [->|Hne].
      * rewrite lookup_insert_eq, Hl. simpl. by rewrite <- (assoc_L (++)).
      * by rewrite lookup_insert_ne.
Qed.

Lemma fill_columns (S : gset text) (recs : list record) (props : record) :
  prop_set props ⊆ S →
  foldE append_value props (columns S recs) = Ok (columns S (recs ++ [props])).
Proof.
  intros Hsub. destruct (fill_values props (columns S recs)) as (values' & -> & Hlook).
  { by rewrite columns_dom. }
  f_equal. apply map_eq. intros p. rewrite Hlook, !columns_lookup.
  destruct (decide (p ∈ S)); simpl; [|done]. by rewrite column_snoc.
Qed.

(** ** The validation loop of lines 42 to 51 *)

Lemma first_mismatch_None (S : gset text) (rs : list record) :
  first_mismatch S rs = None ↔ Forall (λ r, prop_set r = S) rs.
Proof.
  induction rs as [|r rs IH]; simpl; [by split|].
  destruct (decide (prop_set r ≠ S)) as [H|H].
  - split; [done|]. intros [? _]%Forall_cons. done.
  - apply dec_stable in H. rewrite IH. split; [by constructor | by intros [_ ?]%Forall_cons].
Qed.

(** The first mismatching record sits at some position behind records
    that all match. *)
Lemma first_mismatch_Some (S : gset text) (rs : list record) (r : record) :
  first_mismatch S rs = Some r ↔
  ∃ i, rs !! i = Some r ∧ prop_set r ≠ S ∧ Forall (λ r', prop_set r' = S) (take i rs).
Proof.
  induction rs as [|r' rs IH]; simpl.
  - split; [done|]. by intros (i & ? & _).
  - destruct (decide (prop_set r' ≠ S)) as [H|H].
    + split.
      * intros [= ->]. exists 0. by split_and!.
      * intros ([|i] & Hi & Hne & Hall); simpl in *; [congruence|].
        apply Forall_cons in Hall as [? _]. done.
    + apply dec_stable in H. rewrite IH. split.
      * intros (i & Hi & Hne & Hall). exists (Datatypes.S i). split_and!; try done.
        simpl. by constructor.
      * intros ([|i] & Hi & Hne & Hall); simpl in *; [congruence|].
        apply Forall_cons in Hall as [_ ?]. by exists i.
Qed.

Section Loop.
Variable iter : gset text → list text.

Lemma check_element_loop (elements : list text) (S : gset text) (rest : list text) :
  ∀ (k : nat) (done_recs : list record) (w : world),
    drop k elements = rest →
    for_each (check_element iter elements S) (seq k (length rest))
      (columns S done_recs) w
    = match first_mismatch S (Re.findall_props <$> rest) with
      | Some r =>
          (Stops (SysExit 1),
           World (files w)
             (stdout w ++ [mismatch_error (iter (symmetric_difference S (prop_set r)))]))
      | None => (Returns (columns S (done_recs ++ (Re.findall_props <$> rest))), w)
      end.
Proof.
  induction rest as [|e rest IH]; intros k done_recs w Hdrop.
  - simpl. by rewrite app_nil_r.
  - assert (elements !! k = Some e) as He.
    { rewrite <- (Nat.add_0_r k), <- lookup_drop, Hdrop. done. }
    assert (drop (Datatypes.S k) elements = rest) as Hdrop'.
    { replace (Datatypes.S k) with (k + 1) by lia. by rewrite <- drop_drop, Hdrop. }
    cbn [length seq for_each fmap list_fmap first_mismatch].
    unfold bind at 1. unfold check_element at 1. unfold bind at 1, lift at 1, getitem.
    rewrite He. unfold bind at 1.
    destruct (decide (prop_set (Re.findall_props e) ≠ S)) as [Hne|Heq].
    + rewrite bool_decide_eq_true_2 by done. done.
    + rewrite bool_decide_eq_false_2 by done. apply dec_stable in Heq.
      unfold ret, lift. rewrite fill_columns by (by rewrite Heq).
      rewrite IH by done. by rewrite <- (assoc_L (++)).
Qed.

End Loop.

(** ** Emission *)

Lemma first_big_case_capitalize (s : text) :
  s ≠ [] → first_big_case s = Ok (capitalize s).
Proof. destruct s as [|c r]; [done|]. intros _. unfold first_big_case. simpl. by rewrite drop_0. Qed.

Lemma foldE_lines {A} (line : A → text) (body : text → A → E text) (l : list A) (h : text) :
  (∀ h' p, p ∈ l → body h' p = Ok (h' ++ line p)) →
  foldE body l h = Ok (h ++ concat (line <$> l)).
Proof.
  revert h. induction l as [|p l IH]; intros h Hbody; simpl.
  - by rewrite app_nil_r.
  - rewrite Hbody by (by left). simpl. rewrite IH.
    + by rewrite <- (assoc_L (++)).
    + intros h' q Hq. apply Hbody. by right.
Qed.

Lemma foldl_lines {A} (line : A → text) (l : list A) (h : text) :
  foldl (λ h p, h ++ line p) h l = h ++ concat (line <$> l).
Proof.
  revert h. induction l as [|p l IH]; intros h; simpl.
  - by rewrite app_nil_r.
  - by rewrite IH, <- (assoc_L (++)).
Qed.

Lemma mapE_total {A B} (f : A → E B) (g : A → B) (l : list A) :
  (∀ x, x ∈ l → f x = Ok (g x)) → mapE f l = Ok (g <$> l).
Proof.
  induction l as [|x l IH]; intros Hf; simpl; [done|].
  rewrite Hf by (by left). simpl. rewrite IH; [done|].
  intros y Hy. apply Hf. by right.
Qed.

(** Lines 57 to 84 raise nothing on non-empty names and produce the header
    in its five parts. *)
Lemma h_content_ok (class_name : text) (props : list text) :
  Forall (λ p, p ≠ []) props →
  h_content class_name props = Ok (header_text class_name props).
Proof.
  intros Hne. unfold h_content.
  rewrite (foldE_lines enum_line).
  - cbn [bindE]. f_equal.
    rewrite (foldl_lines (λ prop, str "    QStringList m_" ++ prop ++ str "s;" ++ nl)).
    unfold header_text, header_top, header_methods, header_bottom.
    change (λ prop, str "    QStringList m_" ++ prop ++ str "s;" ++ nl) with field_line.
    by rewrite <- ?(assoc_L (++)).
  - intros h' p Hp. rewrite first_big_case_capitalize.
    + cbn [bindE]. unfold enum_line. by rewrite <- ?(assoc_L (++)).
    + by eapply Forall_forall in Hne.
Qed.

Lemma call_arg_ok (values : gmap text (list text)) (i : nat) (prop : text) l v :
  values !! prop = Some l → l !! i = Some v →
  call_arg values i prop = Ok (row_arg values i prop).
Proof.
  intros Hl Hv. unfold call_arg, row_arg, getkey, getitem, translate.
  rewrite Hl. simpl. rewrite Hv. done.
Qed.

(** Lines 87 to 124 raise nothing when the schema is non-empty, the names
    are non-empty and every container has a value for every row; they
    produce the source file in its six parts. *)
Lemma cpp_content_ok (class_name : text) (props : list text)
    (values : gmap text (list text)) (n : nat) :
  props ≠ [] →
  Forall (λ p, p ≠ []) props →
  (∀ p i, p ∈ props → i < n → ∃ l v, values !! p = Some l ∧ l !! i = Some v) →
  cpp_content class_name props values n
  = Ok (cpp_text class_name props (populate_calls props values n)).
Proof.
  intros Hprops Hne Hvals. unfold cpp_content.
  destruct props as [|p0 props'] eqn:Ep; [done|]. rewrite <- Ep in *.
  assert (getitem props 0 = Ok p0) as -> by (by rewrite Ep).
  cbn [bindE].
  rewrite (foldE_lines data_branch).
  2:{ intros h' p Hp. rewrite first_big_case_capitalize by (by eapply Forall_forall in Hne).
      cbn [bindE]. unfold data_branch. by rewrite <- ?(assoc_L (++)). }
  cbn [bindE].
  rewrite (foldE_lines role_name_line).
  2:{ intros h' p Hp. rewrite first_big_case_capitalize by (by eapply Forall_forall in Hne).
      cbn [bindE]. unfold role_name_line. by rewrite <- ?(assoc_L (++)). }
  cbn [bindE].
  rewrite (foldl_lines (λ prop, str "    m_" ++ prop ++ str "s.append(" ++ prop ++ str ");" ++ nl)).
  change (λ prop, str "    m_" ++ prop ++ str "s.append(" ++ prop ++ str ");" ++ nl)
    with append_line.
  rewrite (foldE_lines (λ i, insert_call (row_arg values i <$> props))).
  2:{ intros h' i Hi. apply elem_of_seq in Hi.
      rewrite (mapE_total _ (row_arg values i)).
      - cbn [bindE]. unfold insert_call. by rewrite <- ?(assoc_L (++)).
      - intros p Hp. destruct (Hvals p i) as (l & v & Hl & Hv); [done|lia|].
        by eapply call_arg_ok. }
  cbn [bindE]. f_equal.
  unfold cpp_text, cpp_constructor, cpp_row_count, cpp_data, cpp_role_names, cpp_insert,
    cpp_populate, populate_calls.
  replace (default [] (head props)) with p0 by (by rewrite Ep).
  by rewrite <- ?(assoc_L (++)).
Qed.

(** With an empty schema line 94 raises [IndexError]. *)
Lemma cpp_content_empty (class_name : text) (values : gmap text (list text)) (n : nat) :
  cpp_content class_name [] values n = Raise IndexError.
Proof. done. Qed.

(** ** Runs *)

Lemma values_in_nonempty (p : text) (r : record) :
  p ∈ prop_set r → values_in p r ≠ [].
Proof.
  intros [v Hv]%elem_of_prop_set. unfold values_in.
  assert ((p, v) ∈ filter (λ kv : text * text, kv.1 = p) r) as Hin
    by (by apply list_elem_of_filter).
  intros Hnil. apply fmap_nil_inv in Hnil. rewrite Hnil in Hin. by apply elem_of_nil in Hin.
Qed.

(** Every record that names [p] adds at least one row to its container. *)
Lemma column_length_ge (recs : list record) (p : text) :
  Forall (λ r, p ∈ prop_set r) recs → length recs ≤ length (column recs p).
Proof.
  induction 1 as [|r recs Hr _ IH]; [done|].
  rewrite column_cons, length_app. simpl.
  apply values_in_nonempty in Hr. destruct (values_in p r); [done|]. simpl. lia.
Qed.

Lemma schema_names_nonempty (element : text) :
  Forall (λ p, p ≠ []) (schema (Re.findall_props element)).
Proof.
  apply Forall_forall. intros p [v Hv]%elem_of_schema%elem_of_prop_set.
  by apply findall_props_elem in Hv as [? _].
Qed.

Section Runs.
Variable iter : gset text → list text.
Hypothesis iter_order : set_order iter.

Lemma generate_summary (qml_file_path data : text) (w : world) :
  files w !! qml_file_path = Some data →
  generate_cpp_class iter qml_file_path w
  = generation iter qml_file_path (universal_newlines data) w.
Proof.
  intros Hfile. unfold generate_cpp_class, generation, records.
  unfold bind at 1. unfold read_file. rewrite Hfile.
  set (content := universal_newlines data).
  unfold bind at 1.
  destruct (Re.search_root true content); [|done]. cbn [negb]. unfold ret at 1.
  unfold bind at 1.
  destruct (Re.findall_elements content) as [|e0 rest] eqn:Eel; [done|].
  rewrite bool_decide_eq_false_2 by done. unfold ret at 1.
  unfold bind at 1. unfold lift at 1. cbn [getitem lookup list_lookup].
  cbn [fmap list_fmap].
  assert (Forall (λ p, p ≠ []) (schema (Re.findall_props e0))) as Hnames
    by apply schema_names_nonempty.
  generalize dependent (Re.findall_props e0). intros r0 Hnames. set (S := prop_set r0).
  rewrite init_values by done.
  unfold bind at 1. unfold lift at 1.
  rewrite fill_columns by done.
  unfold bind at 1.
  replace (length (e0 :: rest) - 1) with (length rest) by (simpl; lia).
  rewrite (check_element_loop iter (e0 :: rest) S rest 1 ([] ++ [r0]) w) by done.
  fold (fmap Re.findall_props rest).
  destruct (first_mismatch S (Re.findall_props <$> rest)) as [r|] eqn:Emis; [done|].
  apply first_mismatch_None in Emis.
  rewrite sorted_iter by done. fold (schema r0). fold (class_name_of qml_file_path).
  unfold bind at 1. unfold lift at 1.
  rewrite h_content_ok by done.
  unfold bind at 1. unfold lift at 1.
  destruct (decide (r0 = [])) as [->|Hr0].
  { replace (schema []) with (@nil text) by (symmetry; by apply schema_nil). done. }
  fold (schema r0).
  rewrite cpp_content_ok.
  - destruct r0; [done|]. cbn [length]. by rewrite length_fmap.
  - by intros H%schema_nil.
  - done.
  - intros p i Hp Hi. apply elem_of_schema in Hp.
    rewrite columns_lookup, decide_True by done.
    assert (length (e0 :: rest) ≤ length (column (([] ++ [r0]) ++ (Re.findall_props <$> rest)) p))
      as Hlen.
    { etrans; [|apply column_length_ge].
      - simpl. by rewrite length_fmap.
      - simpl. constructor; [done|]. eapply Forall_impl; [done|].
        intros r Hr. simpl in Hr. by rewrite Hr. }
    destruct (lookup_lt_is_Some_2 (column (([] ++ [r0]) ++ (Re.findall_props <$> rest)) p) i)
      as [v Hv]; [lia|]. eauto.
Qed.

(** The whole program in closed form. *)
Lemma main_summary (argv : list text) (w : world) :
  main iter argv w =
  match argv with
  | [_; qml_file] =>
      match files w !! qml_file with
      | Some data => generation iter qml_file (universal_newlines data) w
      | None => (Stops (SysExit 1), printed w (missing_file_error qml_file))
      end
  | _ => (Stops (SysExit 1), printed w usage_error)
  end.
Proof.
  unfold main. unfold bind at 1.
  destruct argv as [|a0 [|a1 [|a2 argv]]]; try done.
  rewrite bool_decide_eq_false_2 by (simpl; lia).
  unfold ret at 1. unfold bind at 1. unfold lift at 1. cbn [getitem lookup list_lookup].
  unfold bind at 1. unfold path_exists.
  destruct (files w !! a1) as [data|] eqn:Hfile.
  - rewrite bool_decide_eq_true_2 by eauto. cbn [negb]. unfold bind at 1. unfold ret at 1.
    by apply generate_summary.
  - rewrite bool_decide_eq_false_2 by (by intros [? ?]). done.
Qed.

End Runs.

(** ** Paths *)

Lemma rfind_cases (x : ascii) (s : text) :
  ((x ∉ s) ∧ Path.rfind x s = (-1)%Z)
  ∨ ∃ a b, s = a ++ x :: b ∧ (x ∉ b) ∧ Path.rfind x s = Z.of_nat (length a).
Proof.
  induction s as [|c s IH]; simpl.
  - left. split; [apply not_elem_of_nil | done].
  - destruct IH as [[Hnot ->] | (a & b & -> & Hb & ->)].
    + simpl. destruct (char_eqb c x) eqn:E.
      * apply char_eqb_eq in E as ->. right. by exists [], s.
      * apply char_eqb_neq in E. left. split; [|done].
        intros [?|?]%elem_of_cons; congruence.
    + right. exists (c :: a), b. split_and!; [done..|].
      destruct (0 <=? Z.of_nat (length a))%Z eqn:E; [simpl length; lia|].
      apply Z.leb_gt in E. lia.
Qed.

Lemma basename_cases (p : text) :
  (("/" ∉ p) ∧ Path.basename p = p)
  ∨ ∃ a b, p = a ++ "/" :: b ∧ ("/" ∉ b) ∧ Path.basename p = b.
Proof.
  unfold Path.basename.
  destruct (rfind_cases "/" p) as [[Hnot ->] | (a & b & -> & Hb & ->)].
  - left. by split.
  - right. exists a, b. split_and!; [done..|].
    replace (Z.to_nat (Z.of_nat (length a) + 1)) with (length (a ++ ["/"])).
    + by rewrite (cons_middle "/" a b), (assoc_L (++)), drop_app_length.
    + rewrite length_app. simpl. lia.
Qed.

Lemma basename_no_slash (p : text) : "/" ∉ Path.basename p.
Proof.
  destruct (basename_cases p) as [[Hnot ->] | (a & b & _ & Hb & ->)]; done.
Qed.

Lemma splitext_app (p : text) : (Path.splitext p).1 ++ (Path.splitext p).2 = p.
Proof.
  unfold Path.splitext. case_match; simpl; [apply take_drop | apply app_nil_r].
Qed.

Lemma splitext_root_no_slash (p : text) : "/" ∉ p → "/" ∉ (Path.splitext p).1.
Proof.
  intros Hp Hin. apply Hp. rewrite <- (splitext_app p). apply elem_of_app. by left.
Qed.

Lemma class_name_no_slash (qml_file_path : text) : "/" ∉ class_name_of qml_file_path.
Proof. apply splitext_root_no_slash, basename_no_slash. Qed.

Lemma lower_char_slash (c : ascii) : lower_char c = "/" → c = "/".
Proof.
  unfold lower_char, in_range. destruct (_ && _) eqn:E; [|done].
  apply andb_true_iff in E as [E1 E2]. apply N.leb_le in E1, E2.
  intros H. apply (f_equal code) in H. unfold code in H at 1.
  rewrite N_ascii_embedding in H.
  - change (code "/") with 47%N in H. lia.
  - lia.
Qed.

Lemma lower_no_slash (s : text) : "/" ∉ s → "/" ∉ lower s.
Proof.
  unfold lower. intros Hs (c & Hc & Hin)%list_elem_of_fmap.
  symmetry in Hc. apply lower_char_slash in Hc as ->. done.
Qed.

(** The name of an artifact holds no separator. *)
Lemma artifact_name_no_slash (qml_file_path : text) (ext : string) :
  forallb (Re.not_char "/") (str ext) = true →
  "/" ∉ lower (class_name_of qml_file_path) ++ str ext.
Proof.
  intros Hext [H|H]%elem_of_app.
  - by apply (lower_no_slash _ (class_name_no_slash qml_file_path)).
  - rewrite forallb_forall in Hext. apply list_elem_of_In, Hext in H.
    by apply not_char_true in H.
Qed.

Lemma is_slash_true (c : ascii) : Path.is_slash c = true ↔ c = "/".
Proof. apply char_eqb_eq. Qed.

Lemma forallb_is_slash (s : text) :
  forallb Path.is_slash s = true ↔ Forall (λ c, c = "/") s.
Proof.
  rewrite forallb_forall, Forall_forall. split.
  - intros H c Hc. apply is_slash_true, H. by apply list_elem_of_In.
  - intros H c Hc. apply is_slash_true, H. by apply list_elem_of_In.
Qed.

Lemma rstrip_slash_snoc (s : text) (c : ascii) :
  c ≠ "/" → Path.rstrip_slash (s ++ [c]) = s ++ [c].
Proof.
  intros Hc. unfold Path.rstrip_slash. rewrite reverse_snoc. simpl.
  destruct (Path.is_slash c) eqn:E; [by apply is_slash_true in E|].
  by rewrite reverse_cons, reverse_involutive.
Qed.

Lemma rstrip_slash_slash (s : text) :
  Path.rstrip_slash (s ++ ["/"]) = Path.rstrip_slash s.
Proof. unfold Path.rstrip_slash. rewrite reverse_snoc. done. Qed.

(** What [rstrip] leaves is empty or ends in another character. *)
Lemma rstrip_slash_cases (s : text) :
  (Path.rstrip_slash s = [] ∧ Forall (λ c, c = "/") s)
  ∨ ∃ t c, Path.rstrip_slash s = t ++ [c] ∧ c ≠ "/".
Proof.
  induction s as [|c s IH] using rev_ind.
  - left. by split.
  - destruct (decide (c = "/")) as [->|Hc].
    + rewrite rstrip_slash_slash. destruct IH as [[-> Hall] | (t & c & -> & Hc)].
      * left. split; [done|]. apply Forall_app. split; [done|]. by constructor.
      * right. by exists t, c.
    + right. exists s, c. split; [|done]. by apply rstrip_slash_snoc.
Qed.

(** A directory name is empty, made of separators only, or ends in another
    character. *)
Lemma dirname_cases (p : text) :
  Forall (λ c, c = "/") (Path.dirname p)
  ∨ ∃ t c, Path.dirname p = t ++ [c] ∧ c ≠ "/".
Proof.
  unfold Path.dirname.
  destruct (forallb Path.is_slash _) eqn:E; simpl.
  - left. by apply forallb_is_slash.
  - destruct (rstrip_slash_cases (take (Z.to_nat (Path.rfind "/" p + 1)) p))
      as [[_ Hall] | H]; [|by right].
    apply forallb_is_slash in Hall. congruence.
Qed.

Lemma startswith_slash (b : text) : "/" ∉ b → startswith (str "/") b = false.
Proof.
  intros Hb. destruct (startswith (str "/") b) eqn:E; [|done].
  apply startswith_spec in E as [r ->]. destruct Hb. by left.
Qed.

Lemma dirname_no_slash (b : text) : "/" ∉ b → Path.dirname b = [].
Proof.
  intros Hb. unfold Path.dirname.
  destruct (rfind_cases "/" b) as [[_ ->] | (a & b' & -> & _)]; [done|].
  destruct Hb. apply elem_of_app. right. by left.
Qed.

Lemma basename_app_slash (a b : text) : "/" ∉ b → Path.basename (a ++ "/" :: b) = b.
Proof.
  intros Hb. destruct (basename_cases (a ++ "/" :: b)) as [[Hnot _] | (a' & b' & Heq & Hb' & ->)].
  - destruct Hnot. apply elem_of_app. right. by left.
  - (* both splits are at the last separator *)
    revert a' Heq. induction a as [|c a IH]; intros [|c' a'] Heq; simpl in *.
    + by injection Heq.
    + injection Heq as <- ->. destruct Hb. apply elem_of_app. right. by left.
    + injection Heq as -> <-. destruct Hb'. apply elem_of_app. right. by left.
    + injection Heq as -> Heq. by eapply IH.
Qed.

Lemma dirname_app_slash (a b : text) :
  "/" ∉ b →
  Path.dirname (a ++ "/" :: b)
  = if negb (forallb Path.is_slash (a ++ ["/"])) then Path.rstrip_slash (a ++ ["/"])
    else a ++ ["/"].
Proof.
  intros Hb. unfold Path.dirname.
  destruct (rfind_cases "/" (a ++ "/" :: b)) as [[Hnot _] | (a' & b' & Heq & Hb' & ->)].
  - destruct Hnot. apply elem_of_app. right. by left.
  - assert (a' = a) as ->.
    { clear -Heq Hb Hb'. revert a' Heq. induction a as [|c a IH]; intros [|c' a'] Heq; simpl in *.
      + done.
      + injection Heq as <- ->. destruct Hb. apply elem_of_app. right. by left.
      + injection Heq as -> <-. destruct Hb'. apply elem_of_app. right. by left.
      + injection Heq as -> Heq. f_equal. by eapply IH. }
    replace (Z.to_nat (Z.of_nat (length a) + 1)) with (length (a ++ ["/"])).
    + by rewrite (cons_middle "/" a b), (assoc_L (++)), take_app_length.
    + rewrite length_app. simpl. lia.
Qed.

(** An artifact is placed in the directory of the input file, under the
    given name. *)
Lemma join_dirname (p b : text) :
  "/" ∉ b →
  Path.dirname (Path.join (Path.dirname p) b) = Path.dirname p
  ∧ Path.basename (Path.join (Path.dirname p) b) = b.
Proof.
  intros Hb. unfold Path.join. rewrite startswith_slash by done.
  destruct (dirname_cases p) as [Hall | (t & c & Hd & Hc)].
  - destruct (Path.dirname p) as [|c d _] eqn:Ed using rev_ind.
    + simpl. split; [by apply dirname_no_slash|].
      by destruct (basename_cases b) as [[_ ->] | (a' & b' & -> & _)];
        [|destruct Hb; apply elem_of_app; right; left].
    + rewrite last_snoc.
      apply Forall_app in Hall as Hall'. destruct Hall' as [Hd Hc].
      apply Forall_singleton in Hc as ->.
      rewrite (proj2 (is_slash_true "/")) by done.
      rewrite <- (assoc_L (++)). simpl. split; [|by apply basename_app_slash].
      rewrite dirname_app_slash by done.
      by rewrite (proj2 (forallb_is_slash (d ++ ["/"]))).
  - rewrite Hd, last_snoc.
    destruct (Path.is_slash c) eqn:Ec; [by apply is_slash_true in Ec|].
    change (str "/" ++ b) with ("/" :: b). split; [|by apply basename_app_slash].
    rewrite dirname_app_slash by done.
    assert (forallb Path.is_slash ((t ++ [c]) ++ ["/"]) = false) as ->.
    { destruct (forallb Path.is_slash _) eqn:E; [|done].
      apply forallb_is_slash in E.
      apply Forall_app in E as [E _]. apply Forall_app in E as [_ E].
      apply Forall_inv in E. congruence. }
    simpl. rewrite rstrip_slash_slash. by apply rstrip_slash_snoc.
Qed.

Lemma join_inj (d b1 b2 : text) :
  "/" ∉ b1 → "/" ∉ b2 → Path.join d b1 = Path.join d b2 → b1 = b2.
Proof.
  intros H1 H2. unfold Path.join. rewrite !startswith_slash by done.
  destruct (last d) as [c|]; [destruct (Path.is_slash c)|]; intros H.
  - by apply app_inv_head in H.
  - apply app_inv_head in H. by injection H.
  - by apply app_inv_head in H.
Qed.

(** The two artifacts are different files. *)
Lemma header_cpp_differ (qml_file_path : text) :
  header_file_of qml_file_path ≠ cpp_file_of qml_file_path.
Proof.
  unfold header_file_of, cpp_file_of. intros H.
  apply join_inj in H; try (by apply artifact_name_no_slash).
  by apply app_inv_head in H.
Qed.

(** ** The substitution of line 122 *)

Lemma replace_from_skip (old new : text) (n : nat) (s : text) :
  replace_from old new n s = replace_from old new 0 (drop n s).
Proof.
  revert n. induction s as [|c r IH]; intros [|n]; simpl; auto.
Qed.

(** An occurrence at the head is replaced and the scan resumes after it. *)
Lemma translate_match (b : text) :
  translate (str "qsTr(" ++ b) = str "tr(" ++ translate b.
Proof.
  unfold translate, replace. simpl. done.
Qed.

(** Any other character is copied. *)
Lemma translate_copy (c : ascii) (s : text) :
  startswith (str "qsTr(") (c :: s) = false → translate (c :: s) = c :: translate s.
Proof. intros H. unfold translate, replace. cbn [replace_from]. by rewrite H. Qed.



(** A value without the marker is copied verbatim. *)
Lemma translate_verbatim (v : text) :
  ¬ occurs (str "qsTr(") v → translate v = v.
Proof.
  induction v as [|c v IH]; intros Hno; [done|].
  rewrite translate_copy.
  - f_equal. apply IH. intros (pre & post & ->). apply Hno. by exists (c :: pre), post.
  - destruct (startswith _ (c :: v)) eqn:E; [|done].
    apply startswith_spec in E as [r E]. destruct Hno. exists [], r. by rewrite E.
Qed.

(** ** Well-formed inputs *)







Lemma occursb_spec (s t : text) : occursb s t = true ↔ occurs s t.
Proof.
  induction t as [|c t IH]; simpl; rewrite orb_true_iff, startswith_spec.
  - split.
    + intros [[r Hr]|?]; [|done]. by exists [], r.
    + intros (pre & post & H). left. destruct pre; [by exists post|done].
  - rewrite IH. split.
    + intros [[r Hr] | (pre & post & ->)]; [by exists [], r | by exists (c :: pre), post].
    + intros ([|c' pre] & post & H); [left; by exists post|].
      right. injection H as -> ->. by exists pre, post.
Qed.


(** ** The five ways a generation ends *)

Lemma records_nil (content : text) : records content = [] ↔ ¬ element_block content.
Proof.
  rewrite <- findall_elements_nil. unfold records.
  split; [apply fmap_nil_inv | by intros ->].
Qed.

Lemma records_cons_block (content : text) (r0 : record) (rs : list record) :
  records content = r0 :: rs → element_block content.
Proof.
  unfold records. intros H.
  destruct (Re.findall_elements content) as [|e0 rest] eqn:E; [done|].
  assert (e0 ∈ Re.findall_elements content) as Hin by (rewrite E; by left).
  apply findall_elem in Hin as (pre & t & rest' & -> & Hm).
  - apply match_element_here_spec in Hm as (ws & -> & Hws & _).
    by exists pre, ws, e0, rest'.
  - intros s b r. apply match_element_here_suffix.
Qed.

Lemma schema_mismatch_cons (r0 : record) (rs : list record) :
  schema_mismatch (r0 :: rs) ↔ first_mismatch (prop_set r0) rs ≠ None.
Proof.
  rewrite first_mismatch_None. unfold schema_mismatch. split.
  - intros (r0' & rs' & [= <- <-] & Hex) Hall.
    apply Exists_exists in Hex as (r & Hr & Hne).
    by eapply Forall_forall in Hall.
  - intros Hnall. exists r0, rs. split; [done|].
    apply not_Forall_Exists in Hnall; [|apply _].
    eapply Exists_impl; [done|]. simpl. intros r Hr. done.
Qed.

Lemma generation_cases (iter : gset text → list text) (path content : text) (w : world) :
  (¬ root_marker content
   ∧ generation iter path content w = (Stops (SysExit 1), printed w root_error))
  ∨ (root_marker content ∧ ¬ element_block content
     ∧ generation iter path content w = (Stops (SysExit 1), printed w no_element_error))
  ∨ (root_marker content ∧ element_block content ∧ schema_mismatch (records content)
     ∧ ∃ r0 rs i r,
         records content = r0 :: rs
         ∧ rs !! i = Some r ∧ prop_set r ≠ prop_set r0
         ∧ Forall (λ r', prop_set r' = prop_set r0) (take i rs)
         ∧ generation iter path content w
           = (Stops (SysExit 1),
              printed w (mismatch_error
                           (iter (symmetric_difference (prop_set r0) (prop_set r))))))
  ∨ (root_marker content ∧ element_block content ∧ ¬ schema_mismatch (records content)
     ∧ ∃ rs,
         records content = [] :: rs
         ∧ generation iter path content w = (Stops (Uncaught IndexError), w))
  ∨ (root_marker content ∧ element_block content ∧ ¬ schema_mismatch (records content)
     ∧ ∃ r0 rs,
         records content = r0 :: rs ∧ r0 ≠ []
         ∧ Forall (λ r, prop_set r = prop_set r0) rs
         ∧ generation iter path content w
           = (Returns tt,
              generated w path
                (header_text (class_name_of path) (schema r0))
                (cpp_text (class_name_of path) (schema r0)
                   (populate_calls (schema r0)
                      (columns (prop_set r0) (r0 :: rs)) (length (r0 :: rs)))))).
Proof.
  unfold generation.
  destruct (Re.search_root true content) eqn:Eroot; cbn [negb].
  2:{ left. split; [|done]. rewrite <- search_root_spec. congruence. }
  apply search_root_spec in Eroot. right.
  destruct (records content) as [|r0 rs] eqn:Erecs.
  { left. by apply records_nil in Erecs. }
  assert (element_block content) as Hblock by (by eapply records_cons_block).
  right. destruct (first_mismatch (prop_set r0) rs) as [r|] eqn:Emis.
  - left. split_and!; try done.
    + apply schema_mismatch_cons. congruence.
    + apply first_mismatch_Some in Emis as (i & Hi & Hne & Hall).
      by exists r0, rs, i, r.
  - right.
    assert (¬ schema_mismatch (r0 :: rs)) as Hno
      by (rewrite schema_mismatch_cons; congruence).
    apply first_mismatch_None in Emis.
    destruct r0 as [|kv r0'] eqn:Er0; [left | right]; split_and!; try done.
    + by exists rs.
    + exists (kv :: r0'), rs. by split_and!.
Qed.

(** ** Repeated names *)





(** ** The program on the sample inputs *)

Example sample_model_records :
  records (universal_newlines sample_model)
  = [[(str "name", str "apple"); (str "cost", str "qsTr(low)")];
     [(str "cost", str "2"); (str "name", str "pear")]].
Proof. vm_compute. reflexivity. Qed.

Example sample_model_header :
  files (main elements sample_argv (sample_world sample_model)).2 !! str "qml/fruit.h"
  = Some (str "#pragma once

#include <QAbstractListModel>
#include <QStringList>

class Fruit : public QAbstractListModel
{
    Q_OBJECT
public:
    explicit Fruit(QObject *parent = nullptr);

    enum Roles {
        CostRole,
        NameRole,
    };

    int rowCount(const QModelIndex &parent = QModelIndex()) const override;
    QVariant data(const QModelIndex &index, int role = Qt::DisplayRole) const override;
    QHash<int, QByteArray> roleNames() const override;

private:
    QStringList m_costs;
    QStringList m_names;

    void insert(const QString &cost, const QString &name);
    void populateModel();
};

").
Proof. vm_compute. reflexivity. Qed.

Example sample_model_populate :
  ∃ before,
    files (main elements sample_argv (sample_world sample_model)).2 !! str "qml/fruit.cpp"
    = Some (before ++ str "// Populates the model with static data
void Fruit::populateModel()
{
    insert(tr(low), apple);
    insert(2, pear);
}
").
Proof.
  exists (cpp_constructor (str "Fruit") ++ cpp_row_count (str "Fruit") (str "cost")
          ++ cpp_data (str "Fruit") [str "cost"; str "name"]
          ++ cpp_role_names (str "Fruit") [str "cost"; str "name"]
          ++ cpp_insert (str "Fruit") [str "cost"; str "name"]).
  vm_compute. reflexivity.
Qed.

Example sample_model_output :
  (main elements sample_argv (sample_world sample_model)).1 = Returns tt
  ∧ stdout (main elements sample_argv (sample_world sample_model)).2
    = [str "Generated qml/fruit.h and qml/fruit.cpp."].
Proof. split; vm_compute; reflexivity. Qed.

(** Element blocks without properties pass every check and reach line 94
    with an empty schema: [properties[0]] raises [IndexError] before any
    file is written. *)
Example sample_bare_raises :
  main elements sample_argv (sample_world sample_bare)
  = (Stops (Uncaught IndexError), sample_world sample_bare).
Proof. vm_compute. reflexivity. Qed.

(** Without the root marker the run stops at line 21, whatever the
    element blocks hold. *)
Example sample_rootless_stops :
  main elements sample_argv (sample_world sample_rootless)
  = (Stops (SysExit 1), printed (sample_world sample_rootless) root_error).
Proof. vm_compute. reflexivity. Qed.

Example sample_extra_stops :
  (main elements sample_argv (sample_world sample_extra)).1 = Stops (SysExit 1)
  ∧ stdout (main elements sample_argv (sample_world sample_extra)).2
    = [str "Error: All properties in model should be explicitly defined for every ListElement. Missing properties: {'cost'}"].
Proof. split; vm_compute; reflexivity. Qed.

Example basename_splitext_samples :
  class_name_of (str "/home/me/My.Model.qml") = str "My.Model"
  ∧ class_name_of (str ".qml") = str ".qml"
  ∧ header_file_of (str "/Fruit.qml") = str "/fruit.h"
  ∧ cpp_file_of (str "Fruit.qml") = str "fruit.cpp"
  ∧ header_file_of (str "a//b/Fruit.QML") = str "a//b/fruit.h".
Proof. split_and!; vm_compute; reflexivity. Qed.

(** * The program over a file system that can refuse *)

(** With [str.lower] restricted to ASCII the source text of this section
    is the one of the first model. *)
Lemma os_cpp_content_lower (class_name : text) (props : list text)
    (values : gmap text (list text)) (n : nat) :
  Os.cpp_content lower class_name props values n = cpp_content class_name props values n.
Proof. reflexivity. Qed.

Lemma os_cpp_content_ok (str_lower : text → text) (class_name : text) (props : list text)
    (values : gmap text (list text)) (n : nat) :
  props ≠ [] →
  Forall (λ p, p ≠ []) props →
  (∀ p i, p ∈ props → i < n → ∃ l v, values !! p = Some l ∧ l !! i = Some v) →
  Os.cpp_content str_lower class_name props values n
  = Ok (Os.cpp_text str_lower class_name props (populate_calls props values n)).
Proof.
  intros Hprops Hne Hvals. unfold Os.cpp_content.
  destruct props as [|p0 props'] eqn:Ep; [done|]. rewrite <- Ep in *.
  assert (getitem props 0 = Ok p0) as -> by (by rewrite Ep).
  cbn [bindE].
  rewrite (foldE_lines data_branch).
  2:{ intros h' p Hp. rewrite first_big_case_capitalize by (by eapply Forall_forall in Hne).
      cbn [bindE]. unfold data_branch. by rewrite <- ?(assoc_L (++)). }
  cbn [bindE].
  rewrite (foldE_lines role_name_line).
  2:{ intros h' p Hp. rewrite first_big_case_capitalize by (by eapply Forall_forall in Hne).
      cbn [bindE]. unfold role_name_line. by rewrite <- ?(assoc_L (++)). }
  cbn [bindE].
  rewrite (foldl_lines (λ prop, str "    m_" ++ prop ++ str "s.append(" ++ prop ++ str ");" ++ nl)).
  change (λ prop, str "    m_" ++ prop ++ str "s.append(" ++ prop ++ str ");" ++ nl)
    with append_line.
  rewrite (foldE_lines (λ i, insert_call (row_arg values i <$> props))).
  2:{ intros h' i Hi. apply elem_of_seq in Hi.
      rewrite (mapE_total _ (row_arg values i)).
      - cbn [bindE]. unfold insert_call. by rewrite <- ?(assoc_L (++)).
      - intros p Hp. destruct (Hvals p i) as (l & v & Hl & Hv); [done|lia|].
        by eapply call_arg_ok. }
  cbn [bindE]. f_equal.
  unfold Os.cpp_text, Os.cpp_constructor, cpp_row_count, cpp_data, cpp_role_names, cpp_insert,
    cpp_populate, populate_calls.
  replace (default [] (head props)) with p0 by (by rewrite Ep).
  by rewrite <- ?(assoc_L (++)).
Qed.

Section OsRuns.
Variable iter : gset text → list text.
Variable str_lower : text → text.
Hypothesis iter_order : set_order iter.

Lemma os_check_element_loop (elements : list text) (S : gset text) (rest : list text) :
  ∀ (k : nat) (done_recs : list record) (d : Os.disk),
    drop k elements = rest →
    Os.for_each (Os.check_element iter elements S) (seq k (length rest))
      (columns S done_recs) d
    = match first_mismatch S (Re.findall_props <$> rest) with
      | Some r =>
          (Stops (SysExit 1),
           Os.printed d (mismatch_error (iter (symmetric_difference S (prop_set r)))))
      | None => (Returns (columns S (done_recs ++ (Re.findall_props <$> rest))), d)
      end.
Proof.
  induction rest as [|e rest IH]; intros k done_recs d Hdrop.
  - simpl. by rewrite app_nil_r.
  - assert (elements !! k = Some e) as He.
    { rewrite <- (Nat.add_0_r k), <- lookup_drop, Hdrop. done. }
    assert (drop (Datatypes.S k) elements = rest) as Hdrop'.
    { replace (Datatypes.S k) with (k + 1) by lia. by rewrite <- drop_drop, Hdrop. }
    cbn [length seq Os.for_each fmap list_fmap first_mismatch].
    unfold Os.bind at 1. unfold Os.check_element at 1.
    unfold Os.bind at 1, Os.lift at 1, getitem.
    rewrite He. unfold Os.bind at 1.
    destruct (decide (prop_set (Re.findall_props e) ≠ S)) as [Hne|Heq].
    + rewrite bool_decide_eq_true_2 by done. done.
    + rewrite bool_decide_eq_false_2 by done. apply dec_stable in Heq.
      unfold Os.ret, Os.lift. rewrite fill_columns by (by rewrite Heq).
      rewrite IH by done. by rewrite <- (assoc_L (++)).
Qed.

Lemma os_generate_summary (qml_file_path data : text) (d : Os.disk) :
  Os.entries d !! qml_file_path = Some (Ok data) →
  Os.generate_cpp_class iter str_lower qml_file_path d
  = Os.generation iter str_lower qml_file_path (universal_newlines data) d.
Proof.
  intros Hfile. unfold Os.generate_cpp_class, Os.generation, records.
  unfold Os.bind at 1. unfold Os.read_file. rewrite Hfile.
  set (content := universal_newlines data).
  unfold Os.bind at 1.
  destruct (Re.search_root true content); [|done]. cbn [negb]. unfold Os.ret at 1.
  unfold Os.bind at 1.
  destruct (Re.findall_elements content) as [|e0 rest] eqn:Eel; [done|].
  rewrite bool_decide_eq_false_2 by done. unfold Os.ret at 1.
  unfold Os.bind at 1. unfold Os.lift at 1. cbn [getitem lookup list_lookup].
  cbn [fmap list_fmap].
  assert (Forall (λ p, p ≠ []) (schema (Re.findall_props e0))) as Hnames
    by apply schema_names_nonempty.
  generalize dependent (Re.findall_props e0). intros r0 Hnames. set (S := prop_set r0).
  rewrite init_values by done.
  unfold Os.bind at 1. unfold Os.lift at 1.
  rewrite fill_columns by done.
  unfold Os.bind at 1.
  replace (length (e0 :: rest) - 1) with (length rest) by (simpl; lia).
  rewrite (os_check_element_loop (e0 :: rest) S rest 1 ([] ++ [r0]) d) by done.
  fold (fmap Re.findall_props rest).
  destruct (first_mismatch S (Re.findall_props <$> rest)) as [r|] eqn:Emis; [done|].
  apply first_mismatch_None in Emis.
  rewrite sorted_iter by done. fold (schema r0). fold (class_name_of qml_file_path).
  unfold Os.bind at 1. unfold Os.lift at 1.
  rewrite h_content_ok by done.
  unfold Os.bind at 1. unfold Os.lift at 1.
  destruct (decide (r0 = [])) as [->|Hr0].
  { replace (schema []) with (@nil text) by (symmetry; by apply schema_nil). done. }
  rewrite os_cpp_content_ok.
  - fold (Os.header_file_of str_lower qml_file_path).
    fold (Os.cpp_file_of str_lower qml_file_path).
    unfold Os.cpp_of, Os.header_of.
    destruct r0; [done|]. cbn [length]. rewrite length_fmap.
    unfold Os.bind at 1. unfold Os.write_file at 1.
    destruct (Os.refusals d !! Os.header_file_of str_lower qml_file_path); [done|].
    unfold Os.bind at 1. unfold Os.write_file at 1. cbn [Os.refusals].
    destruct (Os.refusals d !! Os.cpp_file_of str_lower qml_file_path); done.
  - by intros H%schema_nil.
  - done.
  - intros p i Hp Hi. apply elem_of_schema in Hp.
    rewrite columns_lookup, decide_True by done.
    assert (length (e0 :: rest) ≤ length (column (([] ++ [r0]) ++ (Re.findall_props <$> rest)) p))
      as Hlen.
    { etrans; [|apply column_length_ge].
      - simpl. by rewrite length_fmap.
      - simpl. constructor; [done|]. eapply Forall_impl; [done|].
        intros r Hr. simpl in Hr. by rewrite Hr. }
    destruct (lookup_lt_is_Some_2 (column (([] ++ [r0]) ++ (Re.findall_props <$> rest)) p) i)
      as [v Hv]; [lia|]. eauto.
Qed.

(** The whole program in closed form. *)
Lemma os_main_summary (argv : list text) (d : Os.disk) :
  Os.main iter str_lower argv d =
  match argv with
  | [_; qml_file] =>
      match Os.entries d !! qml_file with
      | Some (Ok data) => Os.generation iter str_lower qml_file (universal_newlines data) d
      | Some (Raise e) => (Stops (Uncaught e), d)
      | None => (Stops (SysExit 1), Os.printed d (missing_file_error qml_file))
      end
  | _ => (Stops (SysExit 1), Os.printed d usage_error)
  end.
Proof.
  unfold Os.main. unfold Os.bind at 1.
  destruct argv as [|a0 [|a1 [|a2 argv]]]; try done.
  rewrite bool_decide_eq_false_2 by (simpl; lia).
  unfold Os.ret at 1. unfold Os.bind at 1. unfold Os.lift at 1.
  cbn [getitem lookup list_lookup].
  unfold Os.bind at 1. unfold Os.path_exists.
  destruct (Os.entries d !! a1) as [[data|e]|] eqn:Hfile.
  - rewrite bool_decide_eq_true_2 by eauto. cbn [negb].
    unfold Os.bind at 1. unfold Os.ret at 1. by apply os_generate_summary.
  - rewrite bool_decide_eq_true_2 by eauto. cbn [negb].
    unfold Os.bind at 1. unfold Os.ret at 1.
    unfold Os.generate_cpp_class. unfold Os.bind at 1. unfold Os.read_file.
    by rewrite Hfile.
  - rewrite bool_decide_eq_false_2 by (by intros [? ?]). done.
Qed.

End OsRuns.





(** * The claims *)

(** ** C10 *)

(** C10. Role identifiers are generated without error: whatever the
    element body, every name the loops of lines 64, 99 and 107 pass to
    [first_big_case] was captured by [\w+], so it is a non-empty run of word
    characters, [s[0]] is in bounds and the call returns the name with its
    first letter in upper case; [IndexError] is not raised there. *)
Theorem role_identifier_total (iter : gset text → list text) (element name : text) :
  set_order iter →
  name ∈ sorted (iter (prop_set (Re.findall_props element))) →
  name ≠ [] ∧ words name
  ∧ (∃ c rest, name = c :: rest ∧ first_big_case name = Ok (upper_char c :: rest))
  ∧ first_big_case name ≠ Raise IndexError.
Proof.
  intros Hiter Hname.
  rewrite sorted_iter in Hname by done. fold (schema (Re.findall_props element)) in Hname.
  apply elem_of_schema, elem_of_prop_set in Hname as [v Hv].
  apply findall_props_elem in Hv as (Hne & Hw & _).
  destruct name as [|c rest]; [done|].
  split_and!; try done.
  - by exists c, rest.
Qed.

Lemma role_identifier_total_witness :
  first_big_case (str "name") = Ok (str "Name").
Proof.
  destruct (role_identifier_total elements (str "name: apple") (str "name"))
    as (_ & _ & (c & rest & Hname & Hbig) & _).
  - intros X. reflexivity.
  - vm_compute. set_solver.
  - injection Hname as <- <-. exact Hbig.
Defined.

(** ** C3 *)



(** ** C4 *)



(** ** C5 *)



(** ** C1 *)



(** ** C2 *)




(** ** C7 *)



(** ** C6 *)

(** C6. Generation is deterministic.  Two runs on the same input file
    name and the same input text, whatever the order in which each process
    iterates over its sets and whatever else the two file systems hold,
    end with the same exit status; both succeed or neither does; and when
    they succeed the two header files are equal and the two source files
    are equal.  From equal file systems they leave equal file systems. *)
Theorem generation_deterministic (iter1 iter2 : gset text → list text)
    (prog1 prog2 path data : text) (w1 w2 : world) :
  set_order iter1 →
  set_order iter2 →
  files w1 !! path = Some data →
  files w2 !! path = Some data →
  exit_status (main iter1 [prog1; path] w1).1 = exit_status (main iter2 [prog2; path] w2).1
  ∧ ((main iter1 [prog1; path] w1).1 = Returns tt
     ↔ (main iter2 [prog2; path] w2).1 = Returns tt)
  ∧ ((main iter1 [prog1; path] w1).1 = Returns tt →
       ∃ h cpp,
         files (main iter1 [prog1; path] w1).2 !! header_file_of path = Some h
         ∧ files (main iter2 [prog2; path] w2).2 !! header_file_of path = Some h
         ∧ files (main iter1 [prog1; path] w1).2 !! cpp_file_of path = Some cpp
         ∧ files (main iter2 [prog2; path] w2).2 !! cpp_file_of path = Some cpp)
  ∧ (files w1 = files w2 →
       files (main iter1 [prog1; path] w1).2 = files (main iter2 [prog2; path] w2).2).
Proof.
  intros Hiter1 Hiter2 Hfile1 Hfile2.
  rewrite !main_summary by done. rewrite Hfile1, Hfile2. unfold generation.
  destruct (Re.search_root true (universal_newlines data)); cbn [negb];
    [|by split_and!].
  destruct (records (universal_newlines data)) as [|r0 rs]; [by split_and!|].
  destruct (first_mismatch (prop_set r0) rs) as [r|]; [by split_and!|].
  destruct r0 as [|kv r0']; [by split_and!|].
  split_and!; try done.
  - intros _. eexists _, _. simpl. split_and!.
    + rewrite lookup_insert_ne by (symmetry; apply header_cpp_differ).
      by rewrite lookup_insert_eq.
    + rewrite lookup_insert_ne by (symmetry; apply header_cpp_differ).
      by rewrite lookup_insert_eq.
    + by rewrite lookup_insert_eq.
    + by rewrite lookup_insert_eq.
  - intros Heq. simpl. by rewrite Heq.
Qed.

Lemma generation_deterministic_witness :
  files (main elements sample_argv (sample_world sample_model)).2
  = files (main (λ X, reverse (elements X)) sample_argv (sample_world sample_model)).2.
Proof.
  apply (generation_deterministic elements (λ X, reverse (elements X))
           (str "listmodel-to-cpp.py") (str "listmodel-to-cpp.py") sample_path sample_model
           (sample_world sample_model) (sample_world sample_model)).
  - intros X. reflexivity.
  - intros X. apply reverse_Permutation.
  - vm_compute. reflexivity.
  - vm_compute. reflexivity.
  - reflexivity.
Defined.

(** ** C8 *)



(** ** C9 *)




(** * Further properties of the code *)

(** ** Helper lemmas *)

Lemma findall_props_skip_line_feed (rest : text) :
  Re.findall_props (LF :: rest) = Re.findall_props rest.
Proof. unfold Re.findall_props. by apply findall_no_match. Qed.

(** The i-th result of [findall] comes from a match somewhere in the text,
    and the results after it are those found in the text after that
    match. *)
Lemma findall_lookup {A} (here : text → option (A * text)) (s : text) (i : nat) (x : A) :
  (∀ s x rest, here s = Some (x, rest) → ∃ pre, pre ≠ [] ∧ s = pre ++ rest) →
  Re.findall_from here 0 s !! i = Some x →
  ∃ pre t rest, s = pre ++ t
                ∧ here t = Some (x, rest)
                ∧ drop (S i) (Re.findall_from here 0 s) = Re.findall_from here 0 rest.
Proof.
  intros Hsuf. remember (length s) as n eqn:Hn. revert s i Hn.
  induction (lt_wf n) as [n _ IH]; intros s i -> Hx.
  destruct s as [|c r]; [done|].
  destruct (here (c :: r)) as [[y rest]|] eqn:E.
  - rewrite (findall_match here Hsuf _ _ _ E) in Hx |- *.
    destruct i as [|i]; simpl in Hx.
    + injection Hx as ->. exists [], (c :: r), rest. by split.
    + destruct (Hsuf _ _ _ E) as (pre & Hpre & Hs).
      apply (IH (length rest)) in Hx as (pre' & t & rest' & Hr & Ht & Hdrop); [|..|done].
      * exists (pre ++ pre'), t, rest'. split_and!; [|done..].
        by rewrite Hs, Hr, (assoc_L (++)).
      * rewrite Hs, length_app. destruct pre; [done|]. simpl. lia.
  - rewrite (findall_no_match here _ _ E) in Hx |- *.
    apply (IH (length r)) in Hx as (pre' & t & rest' & Hr & Ht & Hdrop); [|simpl; lia|done].
    exists (c :: pre'), t, rest'. split_and!; [|done..]. by rewrite Hr.
Qed.

(** A text is checked to be ASCII by evaluation. *)
Lemma ascii_text_forallb (t : text) : forallb is_ascii t = true → ascii_text t.
Proof.
  induction t as [|c t IH]; simpl; [constructor|].
  intros [Hc Ht]%andb_true_iff. constructor; [done | by apply IH].
Qed.

(** The line printed by a rejection tells the rejections apart. *)
Lemma printed_no_element (d : Os.disk) (s : stop) (m : text) :
  (Stops s, Os.printed d m) = (Stops (SysExit 1) : run unit, Os.printed d no_element_error) →
  m = no_element_error.
Proof.
  unfold Os.printed. intros [= _ H]. apply app_inv_head in H. by injection H.
Qed.

Lemma elem_of_translate (c : ascii) (v : text) :
  c ∈ translate v → c ∈ v ∨ c ∈ str "tr(".
Proof.
  remember (length v) as n eqn:Hn. revert v Hn.
  induction (lt_wf n) as [n _ IH]; intros v -> Hc.
  destruct v as [|d v]; [by left|].
  destruct (startswith (str "qsTr(") (d :: v)) eqn:E.
  - apply startswith_spec in E as [b E]. rewrite E in Hc |- *.
    rewrite translate_match in Hc. apply elem_of_app in Hc as [Hc|Hc]; [by right|].
    apply (IH (length b)) in Hc as [Hc|Hc]; [| by right | | done].
    + left. apply elem_of_app. by right.
    + rewrite E, length_app. simpl. lia.
  - rewrite translate_copy in Hc by done.
    apply elem_of_cons in Hc as [->|Hc]; [left; by left|].
    apply (IH (length v)) in Hc as [Hc|Hc]; [left; by right | by right | simpl; lia | done].
Qed.

(** A prefix without the letter [t] is copied from the value. *)
Lemma translate_prefix (u v : text) :
  "t" ∉ u → startswith u (translate v) = true → startswith u v = true.
Proof.
  revert v. induction u as [|x u IH]; intros v Ht; [done|].
  intros [r Hr]%startswith_spec.
  destruct v as [|d v]; [done|].
  destruct (startswith (str "qsTr(") (d :: v)) eqn:E.
  - apply startswith_spec in E as [b E]. rewrite E, translate_match in Hr.
    injection Hr as <- _. destruct Ht. by left.
  - rewrite translate_copy in Hr by done. injection Hr as <- Hr.
    assert (startswith u v = true) as [r' ->]%startswith_spec.
    { apply IH; [|apply startswith_spec; by exists r]. intros ?. apply Ht. by right. }
    apply startswith_spec. by exists r'.
Qed.

Lemma translate_no_marker (v : text) : occursb (str "qsTr(") (translate v) = false.
Proof.
  remember (length v) as n eqn:Hn. revert v Hn.
  induction (lt_wf n) as [n _ IH]; intros v ->.
  destruct v as [|d v]; [done|].
  destruct (startswith (str "qsTr(") (d :: v)) eqn:E.
  - apply startswith_spec in E as [b E]. rewrite E, translate_match.
    assert (occursb (str "qsTr(") (translate b) = false) as Hb.
    { apply (IH (length b)); [|done]. rewrite E, length_app. simpl. lia. }
    simpl. simpl in Hb. by rewrite Hb.
  - rewrite translate_copy by done. cbn [occursb].
    rewrite (IH (length v)) by (done || simpl; lia). rewrite orb_false_r.
    destruct (startswith (str "qsTr(") (d :: translate v)) eqn:E'; [|done].
    apply startswith_spec in E' as [r Hr]. injection Hr as -> Hr.
    assert (startswith (str "sTr(") v = true) as [r' ->]%startswith_spec.
    { apply translate_prefix; [|apply startswith_spec; by exists r].
      apply (bool_decide_unpack _). vm_compute. exact I. }
    by rewrite (proj2 (startswith_spec (str "qsTr(") ("q" :: str "sTr(" ++ r'))) in E
      by (by exists r').
Qed.

Lemma translate_length (v : text) : length (translate v) ≤ length v.
Proof.
  remember (length v) as n eqn:Hn. revert v Hn.
  induction (lt_wf n) as [n _ IH]; intros v ->.
  destruct v as [|d v]; [done|].
  destruct (startswith (str "qsTr(") (d :: v)) eqn:E.
  - apply startswith_spec in E as [b E]. rewrite E, translate_match, !length_app.
    assert (length (translate b) ≤ length b) as Hb.
    { apply (IH (length b)); [|done]. rewrite E, length_app. simpl. lia. }
    simpl. lia.
  - rewrite translate_copy by done. simpl.
    assert (length (translate v) ≤ length v) by (apply (IH (length v)); [simpl; lia|done]).
    lia.
Qed.

Lemma join_no_char (c : ascii) (sep : text) (l : list text) :
  c ∉ sep → Forall (λ x, c ∉ x) l → c ∉ join sep l.
Proof.
  intros Hsep. induction 1 as [|x l Hx Hl IH]; simpl; [apply not_elem_of_nil|].
  destruct l as [|y l]; [done|].
  rewrite !elem_of_app. tauto.
Qed.

Lemma elem_of_column (recs : list record) (p v : text) :
  v ∈ column recs p → ∃ r, r ∈ recs ∧ (p, v) ∈ r.
Proof.
  induction recs as [|r recs IH]; [by intros ?%elem_of_nil|].
  rewrite column_cons. intros [Hv|Hv]%elem_of_app.
  - exists r. split; [by left|]. unfold values_in in Hv.
    apply list_elem_of_fmap in Hv as ([k v'] & -> & Hkv).
    apply list_elem_of_filter in Hkv as [Hk Hkv]. simpl in Hk. by subst.
  - destruct (IH Hv) as (r' & Hr' & Hpv). exists r'. split; [by right | done].
Qed.

(** The values of the records of an input hold no line feed. *)
Lemma records_values_no_line_feed (content : text) (r : record) (p v : text) :
  r ∈ records content → (p, v) ∈ r → LF ∉ v.
Proof.
  unfold records. intros (e & -> & _)%list_elem_of_fmap Hpv.
  by apply findall_props_elem in Hpv as (_ & _ & ?).
Qed.




(** The header path is the input path only for an input named [.h]. *)
Lemma header_file_is_input (path : text) :
  header_file_of path = path → (Path.splitext (Path.basename path)).2 = str ".h".
Proof.
  intros H. apply (f_equal Path.basename) in H. unfold header_file_of in H.
  rewrite (proj2 (join_dirname path _ (artifact_name_no_slash path ".h" eq_refl))) in H.
  rewrite <- (splitext_app (Path.basename path)) in H. fold (class_name_of path) in H.
  apply app_inj_1 in H as [_ H]; [done|]. unfold lower. by rewrite length_fmap.
Qed.

Lemma cpp_file_is_input (path : text) :
  cpp_file_of path = path → (Path.splitext (Path.basename path)).2 = str ".cpp".
Proof.
  intros H. apply (f_equal Path.basename) in H. unfold cpp_file_of in H.
  rewrite (proj2 (join_dirname path _ (artifact_name_no_slash path ".cpp" eq_refl))) in H.
  rewrite <- (splitext_app (Path.basename path)) in H. fold (class_name_of path) in H.
  apply app_inj_1 in H as [_ H]; [done|]. unfold lower. by rewrite length_fmap.
Qed.

(** A run leaves alone an input that is not named like an artifact. *)
Lemma input_preserved_lookup (iter : gset text → list text) (prog path : text) (w : world) :
  set_order iter →
  (Path.splitext (Path.basename path)).2 ≠ str ".h" →
  (Path.splitext (Path.basename path)).2 ≠ str ".cpp" →
  files (main iter [prog; path] w).2 !! path = files w !! path.
Proof.
  intros Hiter Hh Hcpp. rewrite main_summary by done.
  destruct (files w !! path) as [data|] eqn:Hfile; [|done].
  destruct (generation_cases iter path (universal_newlines data) w)
    as [[_ ->] | [(_ & _ & ->) | [(_ & _ & _ & Hcase)
       | [(_ & _ & _ & Hcase) | (_ & _ & _ & Hcase)]]]]; try done.
  - by destruct Hcase as (r0 & rs & i & r & _ & _ & _ & _ & ->).
  - by destruct Hcase as (rs & _ & ->).
  - destruct Hcase as (r0 & rs & _ & _ & _ & ->).
    unfold generated. cbn [snd files].
    rewrite !lookup_insert_ne; [done|..].
    + intros H. by apply header_file_is_input in H.
    + intros H. by apply cpp_file_is_input in H.
Qed.

(** ** The patterns *)

(** X1. On an ASCII text the search of line 19 succeeds exactly when some
    line starts with optional white space, the word [ListModel], optional
    white space and an opening brace; the white space may span line
    breaks, so the brace may stand on a later line. *)
Theorem root_search_iff_marker (content : text) :
  ascii_text content →
  Re.search_root true content = true ↔
  ∃ pre ws1 ws2 post,
    content = pre ++ ws1 ++ str "ListModel" ++ ws2 ++ str "{" ++ post
    ∧ (pre = [] ∨ last pre = Some LF)
    ∧ spaces ws1 ∧ spaces ws2.
Proof. intros _. apply search_root_spec. Qed.

Lemma root_search_iff_marker_witness :
  ∃ pre ws1 ws2 post,
    str "import QtQuick
  ListModel
{ }" = pre ++ ws1 ++ str "ListModel" ++ ws2 ++ str "{" ++ post
    ∧ (pre = [] ∨ last pre = Some LF)
    ∧ spaces ws1 ∧ spaces ws2.
Proof.
  destruct (root_search_iff_marker (str "import QtQuick
  ListModel
{ }")) as [Hfound _].
  - apply ascii_text_forallb. vm_compute. reflexivity.
  - apply Hfound. vm_compute. reflexivity.
Defined.

(** X2. For an ASCII input, line 24 finds no element exactly when the text
    nowhere holds the word [ListElement] followed by optional white
    space, an opening brace and, later, a closing brace.  The run prints
    the error of line 27 and exits with status 1 exactly when, in
    addition, the text holds the root marker: without it the check of
    line 20 has ended the run before. *)
Theorem no_element_iff_no_block (iter : gset text → list text) (str_lower : text → text)
    (prog path data : text) (d : Os.disk) :
  set_order iter →
  Os.entries d !! path = Some (Ok data) →
  ascii_text data →
  (Re.findall_elements (universal_newlines data) = [] ↔
   ¬ ∃ pre ws body post,
       universal_newlines data
       = pre ++ str "ListElement" ++ ws ++ str "{" ++ body ++ str "}" ++ post
       ∧ spaces ws)
  ∧ (Os.main iter str_lower [prog; path] d
     = (Stops (SysExit 1), Os.printed d (str "Error: No ListElement objects found."))
     ↔ root_marker (universal_newlines data)
       ∧ Re.findall_elements (universal_newlines data) = []).
Proof.
  intros Hiter Hfile _. split; [apply findall_elements_nil|].
  rewrite os_main_summary, Hfile by done. unfold Os.generation.
  destruct (Re.search_root true (universal_newlines data)) eqn:Eroot; cbn [negb].
  2:{ split.
      - intros H%printed_no_element. discriminate.
      - intros [Hroot%search_root_spec _]. congruence. }
  apply search_root_spec in Eroot. unfold records.
  destruct (Re.findall_elements (universal_newlines data)) as [|e0 es]; [done|].
  cbn [fmap list_fmap].
  split; [|by intros [_ ?]]. intros H. exfalso.
  destruct (first_mismatch _ _).
  - apply printed_no_element in H. discriminate.
  - destruct (Re.findall_props e0); [done|].
    repeat case_match; done.
Qed.

Lemma no_element_iff_no_block_witness :
  Os.main elements lower [str "listmodel-to-cpp.py"; sample_path]
    (Os.Disk {[ sample_path := Ok (str "ListModel { }") ]} ∅ [])
  = (Stops (SysExit 1),
     Os.printed (Os.Disk {[ sample_path := Ok (str "ListModel { }") ]} ∅ [])
       (str "Error: No ListElement objects found.")).
Proof.
  destruct (no_element_iff_no_block elements lower (str "listmodel-to-cpp.py") sample_path
              (str "ListModel { }")
              (Os.Disk {[ sample_path := Ok (str "ListModel { }") ]} ∅ []))
    as [_ [_ Hrun]].
  - intros X. reflexivity.
  - vm_compute. reflexivity.
  - apply ascii_text_forallb. vm_compute. reflexivity.
  - apply Hrun. split.
    + apply search_root_spec. vm_compute. reflexivity.
    + vm_compute. reflexivity.
Defined.

(** X3. An element block at the head of a text is captured up to its
    first closing brace and the scan resumes right after that brace: a
    nested pair of braces cuts the body short and the remainder is scanned
    as ordinary text. *)
Theorem element_block_captured (ws body rest : text) :
  spaces ws →
  "}" ∉ body →
  Re.findall_elements (str "ListElement" ++ ws ++ str "{" ++ body ++ str "}" ++ rest)
  = body :: Re.findall_elements rest.
Proof.
  intros Hws Hbody. unfold Re.findall_elements.
  apply findall_match.
  - intros s b r. apply match_element_here_suffix.
  - apply match_element_here_spec. by exists ws.
Qed.

Lemma element_block_captured_witness :
  Re.findall_elements (str "ListElement {a: 1 sub {b: 2} c: 3}")
  = [str "a: 1 sub {b: 2"].
Proof.
  change (str "ListElement {a: 1 sub {b: 2} c: 3}")
    with (str "ListElement" ++ str " " ++ str "{" ++ str "a: 1 sub {b: 2" ++ str "}"
          ++ str " c: 3}").
  rewrite element_block_captured.
  - vm_compute. reflexivity.
  - repeat constructor.
  - apply (bool_decide_unpack _). vm_compute. exact I.
Defined.

(** X4. A property at the head of an ASCII element body: the name is the
    run of word characters, white space may surround the colon, and the
    value is the rest of the line, further colons included.  The white
    space after the colon may hold line breaks: a property with nothing
    after its colon takes the next non-blank line as its value. *)
Theorem property_line_captured (name ws1 ws2 v rest : text) :
  ascii_text (name ++ ws1 ++ str ":" ++ ws2 ++ v ++ LF :: rest) →
  name ≠ [] →
  words name →
  spaces ws1 →
  spaces ws2 →
  LF ∉ v →
  (∃ c v', v = c :: v' ∧ is_space c = false) →
  Re.findall_props (name ++ ws1 ++ str ":" ++ ws2 ++ v ++ LF :: rest)
  = (name, v) :: Re.findall_props rest.
Proof.
  intros _ Hne Hname Hws1 Hws2 Hv (c & v' & -> & Hc).
  rewrite <- (findall_props_skip_line_feed rest). unfold Re.findall_props.
  apply findall_match; [apply match_prop_here_suffix|].
  apply match_prop_here_spec. exists ws1, ws2. split_and!; try done.
  - simpl. by intros ? [= <-].
  - by right.
Qed.

Lemma property_line_captured_witness :
  Re.findall_props (str "title:
url: http://x
") = [(str "title", str "url: http://x")].
Proof.
  change (str "title:
url: http://x
") with (str "title" ++ [] ++ str ":" ++ [LF] ++ str "url: http://x" ++ LF :: []).
  rewrite property_line_captured.
  - reflexivity.
  - apply ascii_text_forallb. vm_compute. reflexivity.
  - discriminate.
  - repeat constructor.
  - constructor.
  - repeat constructor.
  - apply (bool_decide_unpack _). vm_compute. exact I.
  - by eexists _, _.
Defined.

(** X5. Every pair captured by lines 34 and 43 from an ASCII element body
    comes from a place of the body that reads: the name, white space, a
    colon, white space, the value, and then the end of the body or a line
    feed.  The value holds no line feed and does not start with white
    space.  A value is empty only when nothing but white space follows the
    colon up to the end of the body, and such a pair is the last one of
    its element. *)
Theorem property_value_shape (element name v : text) (i : nat) :
  ascii_text element →
  Re.findall_props element !! i = Some (name, v) →
  ∃ pre ws1 ws2 rest,
    element = pre ++ name ++ ws1 ++ str ":" ++ ws2 ++ v ++ rest
    ∧ spaces ws1
    ∧ spaces ws2
    ∧ (rest = [] ∨ head rest = Some LF)
    ∧ (LF ∉ v)
    ∧ (∀ c, head v = Some c → is_space c = false)
    ∧ (v = [] → rest = [] ∧ length (Re.findall_props element) = S i).
Proof.
  intros _ Hi. pose proof Hi as Hlook. unfold Re.findall_props in Hi.
  apply findall_lookup in Hi as (pre & t & rest & Hpre & Hm & Hdrop);
    [|apply match_prop_here_suffix].
  apply match_prop_here_spec
    in Hm as (ws1 & ws2 & -> & _ & _ & Hws1 & Hws2 & Hv & Hhd & Hrest).
  exists pre, ws1, ws2, rest. split_and!; [done..| |].
  - intros c Hc. apply Hhd. by destruct v.
  - intros ->. simpl in Hhd.
    assert (rest = []) as ->.
    { destruct Hrest as [->|Hrest]; [done|]. by apply Hhd in Hrest. }
    split; [done|].
    apply (f_equal length) in Hdrop. rewrite length_drop in Hdrop. simpl in Hdrop.
    apply lookup_lt_Some in Hlook. unfold Re.findall_props in *. lia.
Qed.

Lemma property_value_shape_witness :
  length (Re.findall_props (str "name: apple
cost:   ")) = 2.
Proof.
  destruct (property_value_shape (str "name: apple
cost:   ") (str "cost") [] 1) as (pre & ws1 & ws2 & rest & _ & _ & _ & _ & _ & _ & Hlast).
  - apply ascii_text_forallb. vm_compute. reflexivity.
  - vm_compute. reflexivity.
  - by apply Hlast.
Defined.

(** ** Role identifiers and the substitution *)

(** X6. On a name that starts with an ASCII character [first_big_case]
    keeps the length of the name and changes at most its first character;
    two such names receive the same role identifier exactly when they
    agree after the first character and their first characters agree up
    to case. *)
Theorem role_identifier_collision (p q : text) :
  p ≠ [] →
  q ≠ [] →
  ascii_text (take 1 p) →
  ascii_text (take 1 q) →
  (∃ big, first_big_case p = Ok big ∧ length big = length p ∧ drop 1 big = drop 1 p)
  ∧ (first_big_case p = first_big_case q
     ↔ upper (take 1 p) = upper (take 1 q) ∧ drop 1 p = drop 1 q).
Proof.
  destruct p as [|a p]; [done|]. destruct q as [|b q]; [done|]. intros _ _ _ _.
  unfold first_big_case. simpl. rewrite !drop_0. split.
  - by eexists.
  - split.
    + by intros [= -> ->].
    + by intros [[= ->] ->].
Qed.

Lemma role_identifier_collision_witness :
  first_big_case (str "name") = first_big_case (str "Name").
Proof.
  apply (role_identifier_collision (str "name") (str "Name")).
  - discriminate.
  - discriminate.
  - repeat constructor.
  - repeat constructor.
  - split; reflexivity.
Defined.

(** X7. The substitution of line 122 leaves no occurrence of the marker
    in an argument, so applying it again changes nothing, and it never
    makes a value longer. *)
Theorem substitution_removes_marker (v : text) :
  ¬ occurs (str "qsTr(") (replace (str "qsTr(") (str "tr(") v)
  ∧ replace (str "qsTr(") (str "tr(") (replace (str "qsTr(") (str "tr(") v)
    = replace (str "qsTr(") (str "tr(") v
  ∧ length (replace (str "qsTr(") (str "tr(") v) ≤ length v.
Proof.
  fold (translate v). fold (translate (translate v)).
  assert (¬ occurs (str "qsTr(") (translate v)) as Hno.
  { rewrite <- occursb_spec, translate_no_marker. done. }
  split_and!; [done | by apply translate_verbatim | apply translate_length].
Qed.

(** ** Runs *)

(** X8. In every run that succeeds, each call of [insert] written to
    [populateModel] is one line: between [insert(] and the closing [);]
    there is no line feed, whatever the values of the input are. *)
Theorem emitted_calls_single_line (iter : gset text → list text)
    (argv : list text) (w : world) :
  set_order iter →
  (main iter argv w).1 = Returns tt →
  ∃ prog path before calls,
    argv = [prog; path]
    ∧ files (main iter argv w).2 !! cpp_file_of path
      = Some (before ++ cpp_populate (class_name_of path) calls)
    ∧ Forall (λ call, ∃ line, call = str "    insert(" ++ line ++ str ");" ++ nl
                              ∧ LF ∉ line) calls.
Proof.
  intros Hiter. rewrite main_summary by done.
  destruct argv as [|prog [|path [|a2 argv]]]; try done.
  destruct (files w !! path) as [data|] eqn:Hfile; [|done].
  destruct (generation_cases iter path (universal_newlines data) w)
    as [[_ ->] | [(_ & _ & ->) | [(_ & _ & _ & Hcase)
       | [(_ & _ & _ & Hcase) | (_ & _ & _ & Hcase)]]]]; try done.
  { by destruct Hcase as (r0 & rs & i & r & _ & _ & _ & _ & ->). }
  { by destruct Hcase as (rs & _ & ->). }
  destruct Hcase as (r0 & rs & Hrecs & _ & _ & ->). intros _.
  exists prog, path.
  exists (cpp_constructor (class_name_of path)
            ++ cpp_row_count (class_name_of path) (default [] (head (schema r0)))
            ++ cpp_data (class_name_of path) (schema r0)
            ++ cpp_role_names (class_name_of path) (schema r0)
            ++ cpp_insert (class_name_of path) (schema r0)).
  exists (populate_calls (schema r0) (columns (prop_set r0) (r0 :: rs)) (length (r0 :: rs))).
  split_and!; [done | |].
  - unfold generated. cbn [snd files]. rewrite lookup_insert_eq.
    unfold cpp_text. by rewrite <- !(assoc_L (++)).
  - apply Forall_forall. intros call (i & -> & _)%list_elem_of_fmap.
    eexists. split; [reflexivity|].
    apply join_no_char; [apply (bool_decide_unpack _); vm_compute; exact I|].
    apply Forall_forall. intros arg (p & -> & _)%list_elem_of_fmap.
    unfold row_arg. intros [Hin|Hin]%elem_of_translate.
    2:{ revert Hin. apply (bool_decide_unpack _). vm_compute. exact I. }
    rewrite columns_lookup in Hin.
    destruct (decide (p ∈ prop_set r0)); simpl in Hin; [|by apply elem_of_nil in Hin].
    destruct (column (r0 :: rs) p !! i) as [v|] eqn:Hv; simpl in Hin;
      [|by apply elem_of_nil in Hin].
    apply list_elem_of_lookup_2, elem_of_column in Hv as (r & Hr & Hpv).
    rewrite <- Hrecs in Hr. by eapply records_values_no_line_feed.
Qed.

Lemma emitted_calls_single_line_witness :
  ∃ before calls,
    files (main elements sample_argv (sample_world sample_model)).2 !! cpp_file_of sample_path
    = Some (before ++ cpp_populate (class_name_of sample_path) calls).
Proof.
  destruct (emitted_calls_single_line elements sample_argv (sample_world sample_model))
    as (prog & path & before & calls & Hargv & Hcpp & _).
  - intros X. reflexivity.
  - rewrite (main_summary elements) by (intros X; reflexivity). vm_compute. reflexivity.
  - injection Hargv as <- <-. by exists before, calls.
Defined.





(** X11. A run never changes its input file, unless that file is itself
    named with the extension [.h] or [.cpp]: for every other input path
    the file is the same after the run, whether the run succeeds or not. *)
Theorem input_file_preserved (iter : gset text → list text) (prog path : text) (w : world) :
  set_order iter →
  (Path.splitext (Path.basename path)).2 ≠ str ".h" →
  (Path.splitext (Path.basename path)).2 ≠ str ".cpp" →
  files (main iter [prog; path] w).2 !! path = files w !! path.
Proof. apply input_preserved_lookup. Qed.

Lemma input_file_preserved_witness :
  files (main elements sample_argv (sample_world sample_model)).2 !! sample_path
  = Some sample_model.
Proof.
  rewrite (input_file_preserved elements (str "listmodel-to-cpp.py") sample_path
             (sample_world sample_model)).
  - vm_compute. reflexivity.
  - intros X. reflexivity.
  - vm_compute. discriminate.
  - vm_compute. discriminate.
Defined.





(** X14. Running the program again changes no file: after any run on an
    input not named [.h] or [.cpp], a second run on the resulting file
    system, even in a process that iterates over sets in another order,
    ends with the same exit status and leaves every file as the first run
    left it. *)
Theorem second_run_changes_nothing (iter1 iter2 : gset text → list text)
    (prog path : text) (w : world) :
  set_order iter1 →
  set_order iter2 →
  (Path.splitext (Path.basename path)).2 ≠ str ".h" →
  (Path.splitext (Path.basename path)).2 ≠ str ".cpp" →
  files (main iter2 [prog; path] (main iter1 [prog; path] w).2).2
  = files (main iter1 [prog; path] w).2
  ∧ exit_status (main iter2 [prog; path] (main iter1 [prog; path] w).2).1
    = exit_status (main iter1 [prog; path] w).1.
Proof.
  intros Hiter1 Hiter2 Hh Hcpp.
  assert (files (main iter1 [prog; path] w).2 !! path = files w !! path) as Hkeep
    by (by apply input_preserved_lookup).
  rewrite (main_summary iter2) by done. rewrite Hkeep.
  rewrite (main_summary iter1) by done.
  destruct (files w !! path) as [data|] eqn:Hfile; [|done].
  unfold generation.
  destruct (Re.search_root true (universal_newlines data)); cbn [negb]; [|done].
  destruct (records (universal_newlines data)) as [|r0 rs]; [done|].
  destruct (first_mismatch (prop_set r0) rs) as [r|]; [done|].
  destruct r0 as [|kv r0']; [done|].
  split; [|done]. unfold generated. cbn [snd files].
  apply map_eq. intros q.
  destruct (decide (q = cpp_file_of path)) as [->|Hq1].
  { by rewrite !lookup_insert_eq. }
  rewrite !(lookup_insert_ne _ (cpp_file_of path)) by done.
  destruct (decide (q = header_file_of path)) as [->|Hq2].
  { by rewrite !lookup_insert_eq. }
  by rewrite !lookup_insert_ne.
Qed.

Lemma second_run_changes_nothing_witness :
  files (main (λ X, reverse (elements X)) [str "listmodel-to-cpp.py"; sample_path]
           (main elements [str "listmodel-to-cpp.py"; sample_path]
              (sample_world sample_model)).2).2
  = files (main elements [str "listmodel-to-cpp.py"; sample_path]
             (sample_world sample_model)).2.
Proof.
  destruct (second_run_changes_nothing elements (λ X, reverse (elements X))
              (str "listmodel-to-cpp.py") sample_path (sample_world sample_model))
    as [Hfiles _].
  - intros X. reflexivity.
  - intros X. apply reverse_Permutation.
  - vm_compute. discriminate.
  - vm_compute. discriminate.
  - exact Hfiles.
Defined.
